(** * The SKS reconciliation peer of hockeypuck's hkp package (sks/recon.go)

    A shallow embedding of [sks/recon.go]: the digest codec ([DigestZp]), the
    load statistics ([LoadStatMap], [Stats]), the digest-update pipeline
    ([updateDigests]), the recovery processor ([handleRecovery],
    [requestRecovered], [requestChunk], [upsertKeys]) and the peer's
    start-up and shutdown sequence ([loadStats], [saveStats], [Stop]).

    Go values are modelled as follows.
    - [[]byte] is [list byte]; a Go [string] is a [string] (a sequence of
      8-bit characters, as in Go).
    - [int] is a 64-bit two's complement integer: a [Z] with the wrap-around
      of [++] written out ([int_incr]).  Lengths of slices are [nat].
    - [time.Time] is the instant it denotes, in nanoseconds, as a [Z].
    - [map[time.Time]*LoadStat] is a [gmap Z LoadStat].
    - A Go [error] that may be [nil] is an [option error]; a pair
      [(value, error)] is a [Result].
    - Every call that leaves the package (the reconciliation engine, the
      prefix tree, the key store, the network, the file system, the clock,
      the tomb) appends an [Event] to the trace of the [World]; what such a
      call returns is read from the environment [Env], which may depend on
      everything that happened before.  Log output is not modelled.
    - The methods run one at a time: the mutex of [Stats] and the goroutines
      of the tomb are not modelled; a loop around a [select] is run against
      the sequence of things the [select] takes. *)

From Stdlib Require Import ZArith NArith Lia.
From Stdlib.Strings Require Import Ascii String.
From Stdlib.Strings Require Byte.
From Equations Require Import Equations.
From stdpp Require Import gmap strings list fin_maps.

Local Open Scope N_scope.

Abbreviation byte := Byte.byte.

(** ** Errors *)

(** The error values that flow through the package.  [Mask], [Notef_*] and
    [Newf_*] are the errgo wrappers at the places the source uses them; the
    format strings are kept as constructor names and their arguments as
    constructor arguments. *)
Inductive error : Type :=
| ErrLength                                   (* encoding/hex: odd length hex string *)
| InvalidByteError (c : ascii)                (* encoding/hex: invalid byte *)
| ErrEOF                                      (* io.EOF *)
| ErrUnexpectedEOF                            (* io.ErrUnexpectedEOF *)
| ExternalError (what : string)               (* an error value made outside the package *)
| Newf_error_response (remoteAddr : string) (body : list byte)
                                              (* errgo.Newf("error response from %q: %v", ...) *)
| Mask (e : error)                            (* errgo.Mask(e), e not nil *)
| Notef_bad_digest (e : error) (digest : string)
                                              (* errgo.Notef(e, "bad digest %q", digest) *)
| Notef_details (e : error) (detail : error). (* errgo.Notef(e, "%s", errgo.Details(detail)) *)

(** errgo.Mask returns nil on nil. *)
Definition errgo_Mask (err : option error) : option error :=
  match err with
  | None => None
  | Some e => Some (Mask e)
  end.

(** A Go result pair [(value, error)]. *)
Inductive Result (A : Type) : Type :=
| Ok (a : A)
| Err (e : error).
Arguments Ok {A} a.
Arguments Err {A} e.

(** ** Bytes and encoding/hex *)

(** The Go conversion [byte(n)]. *)
Definition byte_of_N (n : N) : byte :=
  default Byte.x00 (Byte.of_N (n mod 256)).

Definition N_of_byte (b : byte) : N := Byte.to_N b.

(** encoding/hex [fromHexChar]: the value of one hexadecimal digit. *)
Definition fromHexChar (c : ascii) : option N :=
  let n := N_of_ascii c in
  if (48 <=? n) && (n <=? 57) then Some (n - 48)
  else if (97 <=? n) && (n <=? 102) then Some (n - 97 + 10)
  else if (65 <=? n) && (n <=? 70) then Some (n - 65 + 10)
  else None.

(** encoding/hex [DecodeString]: two digits per byte, the first problem from
    the left is reported.  (The bytes decoded before an error are dropped by
    the only caller, [DigestZp].) *)
Fixpoint hex_DecodeString (s : string) : Result (list byte) :=
  match s with
  | EmptyString => Ok []
  | String p EmptyString =>
      match fromHexChar p with
      | None => Err (InvalidByteError p)
      | Some _ => Err ErrLength
      end
  | String p (String q rest) =>
      match fromHexChar p, fromHexChar q with
      | None, _ => Err (InvalidByteError p)
      | Some _, None => Err (InvalidByteError q)
      | Some a, Some b =>
          match hex_DecodeString rest with
          | Err e => Err e
          | Ok bs => Ok (byte_of_N (N.lor (N.shiftl a 4) b) :: bs)
          end
      end
  end.

(** ** conflux: the field Z(p) and the SKS element width *)

(** Modelled from the spec: the reconciliation engine's arithmetic domain
    (conflux [cf.Zp], [cf.Zb], [cf.P_SKS], [Zp.Bytes]) and its padding rule
    (conflux [recon.PadSksElement], [recon.SksZpNbytes]) are imported by
    recon.go and are not part of it.  An element is an integer modulo the SKS
    prime; its byte representation is little-endian, without trailing zero
    bytes; [Zb] reads little-endian bytes and reduces modulo the prime. *)
Definition P_SKS : N := 530512889551602322505127520352579437339.

(** Modelled from the spec: the full element width of the protocol.  The
    source states it at recon.go:359: hash-query elements are 16 bytes, which
    is length_of(P_SKS) - 1. *)
Definition SksZpNbytes : nat := 17.

(** Modelled from the spec: conflux [cf.Zp], an integer [Int] of the field
    Z([P]). *)
Record Zp : Type := mkZp { Int : N; P : N }.

(** math/big [Int.SetBytes]: a big-endian unsigned integer. *)
Definition big_SetBytes (buf : list byte) : N :=
  fold_left (fun acc b => acc * 256 + N_of_byte b) buf 0.

(** math/big [Int.Bytes]: the big-endian bytes of a natural number, without
    leading zeros (no bytes at all for 0).  The fuel is the bit size of the
    number, which bounds the number of its bytes. *)
Fixpoint big_Bytes_go (fuel : nat) (n : N) (acc : list byte) : list byte :=
  match fuel with
  | O => acc
  | S fuel' =>
      if n =? 0 then acc
      else big_Bytes_go fuel' (n / 256) (byte_of_N (n mod 256) :: acc)
  end.

Definition big_Bytes (n : N) : list byte := big_Bytes_go (N.size_nat n) n [].

(** Modelled from the spec: conflux [reversed], the bytes in reverse order. *)
Definition reversed (b : list byte) : list byte := rev b.

(** Modelled from the spec: conflux [Zp.Bytes], the little-endian bytes of
    the element: the bytes of its integer, reversed. *)
Definition Zp_Bytes (z : Zp) : list byte := reversed (big_Bytes (Int z)).

(** Modelled from the spec: conflux [cf.Zb], the element of Z(p) with the
    given little-endian bytes: [SetBytes] on the reversed bytes, then [Norm],
    the reduction modulo [p]. *)
Definition Zb (p : N) (b : list byte) : Zp :=
  {| Int := big_SetBytes (reversed b) mod p; P := p |}.

(** Modelled from the spec: conflux [recon.PadSksElement], the engine's
    padding rule: zero bytes are appended while the slice is shorter than the
    element width; a longer slice is left as it is. *)
Definition PadSksElement (zb : list byte) : list byte :=
  zb ++ replicate (SksZpNbytes - length zb) Byte.x00.

(** ** The digest codec (recon.go:281) *)

Definition DigestZp (digest : string) : Result Zp :=
  match hex_DecodeString digest with
  | Err err => Err (Mask err)
  | Ok buf =>
      let buf := PadSksElement buf in
      Ok (Zb P_SKS buf)
  end.

(** ** Go's int, time.Time and time.Duration *)

Local Open Scope Z_scope.

(** Reduction of an integer to the 64-bit two's complement range of [int]. *)
Definition int_wrap (z : Z) : Z := (z + 2 ^ 63) mod 2 ^ 64 - 2 ^ 63.

(** The statement [x++] on an [int]. *)
Definition int_incr (x : Z) : Z := int_wrap (x + 1).

(** An instant, in nanoseconds since the zero time. *)
Abbreviation Time := Z.

(** [time.Hour], a Duration in nanoseconds. *)
Definition Hour : Z := 3600 * 1000000000.

Definition Time_Add (t : Time) (d : Z) : Time := t + d.

Definition Time_Before (t u : Time) : bool := t <? u.

(** [Time.Truncate]: rounds down to a multiple of [d] since the zero time,
    and leaves [t] unchanged for [d <= 0].  [Time.UTC] keeps the instant. *)
Definition Time_Truncate (t : Time) (d : Z) : Time :=
  if d <=? 0 then t else t - t mod d.

(** ** Key changes of the store (storage.KeyChange) *)

(** The dynamic type of a change, as the type switches of recon.go see it:
    [KeyAdded], [KeyReplaced], or any other type that implements the
    interface. *)
Inductive KeyChangeKind : Type := KeyAdded | KeyReplaced | KeyOther.

Record KeyChange : Type := mkKeyChange {
  kind : KeyChangeKind;
  InsertDigests : list string;
  RemoveDigests : list string
}.

(** ** Load statistics (recon.go:62-150) *)

Record LoadStat : Type := mkLoadStat { Inserted : Z; Updated : Z }.

Abbreviation LoadStatMap := (gmap Z LoadStat).

Record Stats : Type := mkStats {
  Total : Z;
  Hourly : LoadStatMap;
  Daily : LoadStatMap
}.

Definition newStats : Stats := {| Total := 0; Hourly := ∅; Daily := ∅ |}.

(** [LoadStatMap.update]: the bucket is created when absent, then counted
    into through the pointer stored in the map. *)
Definition LoadStatMap_update (m : LoadStatMap) (t : Time) (kc : KeyChange)
  : LoadStatMap :=
  let ls := match m !! t with
            | Some ls => ls
            | None => {| Inserted := 0; Updated := 0 |}
            end in
  let ls := match kind kc with
            | KeyAdded => {| Inserted := int_incr (Inserted ls); Updated := Updated ls |}
            | KeyReplaced => {| Inserted := Inserted ls; Updated := int_incr (Updated ls) |}
            | KeyOther => ls
            end in
  <[t := ls]> m.

(** The loops of [Stats.prune]: [for k := range m { if k.Before(bound)
    { delete(m, k) } }], over the keys the map has when the loop starts. *)
Definition delete_before (bound : Time) (m : LoadStatMap) : LoadStatMap :=
  foldl (fun acc k => if Time_Before k bound then delete k acc else acc)
        m (map_to_list m).*1.

(** ** The world outside the package *)

(** A parsed OpenPGP primary key (openpgp.Pubkey), opaque here. *)
Record PrimaryKey : Type := mkPrimaryKey { key_packets : list byte }.

(** [recon.Recover]: [HkpAddr] is the result of the method of that name. *)
Record Recover : Type := mkRecover {
  HkpAddr : Result string;
  RemoteElements : list Zp
}.

(** An HTTP response: the status code and what [ioutil.ReadAll] gives for
    its body. *)
Record Response : Type := mkResponse {
  StatusCode : Z;
  Body : Result (list byte)
}.

(** What [os.Open] gives: a file with its content, or one of its errors. *)
Inductive OpenResult : Type :=
| Opened (content : list byte)
| NotExist (e : error)
| OpenFailed (e : error).

(** The calls that leave the package, in the order they are made. *)
Inductive Event : Type :=
| EvNow (t : Time)                                   (* time.Now() *)
| EvInsert (z : Zp)                                  (* recon.Peer.Insert *)
| EvRemove (z : Zp)                                  (* recon.Peer.Remove *)
| EvPost (url contentType : string) (body : list byte) (* http.Post *)
| EvUpsertKey (key : PrimaryKey)                     (* storage.UpsertKey *)
| EvKill                                             (* tomb.Kill(nil) *)
| EvWait                                             (* tomb.Wait() *)
| EvPeerStop                                         (* recon.Peer.Stop *)
| EvPTreeClose                                       (* PrefixTree.Close *)
| EvPTreeRoot                                        (* PrefixTree.Root *)
| EvOpen (fn : string)                               (* os.Open *)
| EvCreate (fn : string)                             (* os.Create *)
| EvEncode (s : Stats)                               (* json Encoder.Encode *)
| EvFileClose.                                       (* File.Close *)

(** What the outside returns.  A field with a [list Event] argument is asked
    with the trace so far, so it may answer every call differently. *)
Record Env : Type := mkEnv {
  time_Now_at : list Event -> Time;
  http_Post_at : list Event -> string -> string -> list byte -> Result Response;
  storage_UpsertKey_at : list Event -> PrimaryKey -> option error;
  tomb_Wait_at : list Event -> option error;
  peer_Stop_at : list Event -> option error;
  ptree_Close_at : list Event -> option error;
  ptree_Root_at : list Event -> Result Z;
  os_Open_at : list Event -> string -> OpenResult;
  os_Create_at : list Event -> string -> option error;
  json_Encode_at : list Event -> Stats -> option error;
  (* pure library functions *)
  json_Decode : list byte -> Stats -> Stats * option error;
  openpgp_ReadKeys : list byte -> list (Result PrimaryKey);
  openpgp_DropDuplicates : PrimaryKey -> PrimaryKey * option error;
  recon_WriteInt : Z -> list byte;
  recon_ReadInt : list byte -> Result (Z * list byte);
  filepath_Dir : string -> string;
  filepath_Base : string -> string;
  filepath_Join : string -> string -> string
}.

(** The peer and its surroundings: [path] and [stats] are the fields of
    [Peer]; its handles on the engine, the tree, the store and the tomb are
    the environment and the trace. *)
Record World : Type := mkWorld {
  env : Env;
  trace : list Event;
  path : string;
  stats : Stats
}.

Definition set_stats (s : Stats) (w : World) : World :=
  {| env := env w; trace := trace w; path := path w; stats := s |}.

Definition record (ev : Event) (w : World) : World :=
  {| env := env w; trace := trace w ++ [ev]; path := path w; stats := stats w |}.

(** ** Computations that may return an error *)

(** A method of the peer: it changes the world and returns a value or an
    error.  [x ← m; k] stops at the first error, as [if err != nil
    { return err }] does. *)
Definition Run (A : Type) : Type := World -> Result A * World.

#[global] Instance Run_ret : MRet Run := fun A a w => (Ok a, w).

#[global] Instance Run_bind : MBind Run := fun A B k m w =>
  match m w with
  | (Ok a, w') => k a w'
  | (Err e, w') => (Err e, w')
  end.

Definition fail {A : Type} (e : error) : Run A := fun w => (Err e, w).

(** A call whose error is kept as a value instead of being returned. *)
Definition attempt {A : Type} (m : Run A) : World -> option error * World :=
  fun w => match m w with
           | (Ok _, w') => (None, w')
           | (Err e, w') => (Some e, w')
           end.

(** [if err != nil { return errgo.Mask(err) }] after a call. *)
Definition masked {A : Type} (r : Result A) : Run A :=
  match r with
  | Ok a => mret a
  | Err e => fail (Mask e)
  end.

(** The same after a call of a method of the peer. *)
Definition mask_run {A : Type} (m : Run A) : Run A :=
  fun w => match m w with
           | (Ok a, w') => (Ok a, w')
           | (Err e, w') => (Err (Mask e), w')
           end.

Definition masked_err (err : option error) : Run unit :=
  match err with
  | None => mret tt
  | Some e => fail (Mask e)
  end.

(** An outside call: the answer is read from the environment, the call is
    recorded. *)
Definition call {A : Type} (answer : Env -> list Event -> A) (ev : A -> Event)
  : Run A :=
  fun w => let a := answer (env w) (trace w) in (Ok a, record (ev a) w).

(** [if err != nil { log... }]: logging is not modelled. *)
Definition logged (err : option error) : Run unit :=
  match err with
  | Some _ => mret tt
  | None => mret tt
  end.

Definition time_Now : Run Time := call time_Now_at EvNow.

Definition modify_stats (f : Stats -> Stats) : Run unit :=
  fun w => (Ok tt, set_stats (f (stats w)) w).

(** ** Stats.prune and Stats.update (recon.go:122-150) *)

Definition Stats_prune : Run unit :=
  now ← time_Now;
  let yesterday := Time_Add now (-24 * Hour) in
  now ← time_Now;
  let lastWeek := Time_Add now (-24 * 7 * Hour) in
  modify_stats (fun s =>
    {| Total := Total s;
       Hourly := delete_before yesterday (Hourly s);
       Daily := Daily s |});;
  modify_stats (fun s =>
    {| Total := Total s;
       Hourly := Hourly s;
       Daily := delete_before lastWeek (Daily s) |}).

Definition Stats_update (kc : KeyChange) : Run unit :=
  now ← time_Now;
  modify_stats (fun s =>
    {| Total := Total s;
       Hourly := LoadStatMap_update (Hourly s) (Time_Truncate now Hour) kc;
       Daily := Daily s |});;
  now ← time_Now;
  modify_stats (fun s =>
    {| Total := Total s;
       Hourly := Hourly s;
       Daily := LoadStatMap_update (Daily s) (Time_Truncate now (24 * Hour)) kc |});;
  modify_stats (fun s =>
    {| Total := match kind kc with
                | KeyAdded => int_incr (Total s)
                | KeyReplaced => int_incr (Total s)
                | KeyOther => Total s
                end;
       Hourly := Hourly s;
       Daily := Daily s |}).

(** ** statsFilename, loadStats and saveStats (recon.go:190-236) *)

Definition statsFilename (e : Env) (path : string) : string :=
  let '(dir, base) := (filepath_Dir e path, filepath_Base e path) in
  filepath_Join e dir ("." +:+ base +:+ ".stats")%string.

Definition loadStats : Run unit :=
  fun w =>
  let fn := statsFilename (env w) (path w) in
  let stats0 := newStats in
  (o ← call (fun e tr => os_Open_at e tr fn) (fun _ => EvOpen fn);
   stats1 ← match o with
            | NotExist err => mret stats0
            | OpenFailed err => logged (Some err);; mret stats0
            | Opened content =>
                let '(stats1, err) := json_Decode (env w) content stats0 in
                logged err;;
                mret stats1
            end;
   root ← call ptree_Root_at (fun _ => EvPTreeRoot);
   stats2 ← match root with
            | Err err => logged (Some err);; mret stats1
            | Ok size =>
                mret {| Total := size; Hourly := Hourly stats1; Daily := Daily stats1 |}
            end;
   modify_stats (fun _ => stats2);;
   (* defer f.Close() *)
   match o with
   | Opened _ => call (fun _ _ => tt) (fun _ => EvFileClose)
   | _ => mret tt
   end) w.

Definition saveStats : Run unit :=
  fun w =>
  let fn := statsFilename (env w) (path w) in
  (err ← call (fun e tr => os_Create_at e tr fn) (fun _ => EvCreate fn);
   logged err;;
   err ← call (fun e tr => json_Encode_at e tr (stats w)) (fun _ => EvEncode (stats w));
   logged err;;
   call (fun _ _ => tt) (fun _ => EvFileClose)) w.

(** ** Stop (recon.go:257) *)

Definition Stop : Run unit :=
  call (fun _ _ => tt) (fun _ => EvKill);;
  err ← call tomb_Wait_at (fun _ => EvWait);
  logged err;;
  err ← call peer_Stop_at (fun _ => EvPeerStop);
  let err := errgo_Mask err in
  logged err;;
  err ← call ptree_Close_at (fun _ => EvPTreeClose);
  logged err;;
  saveStats.

(** ** The digest-update pipeline (recon.go:290) *)

Definition peer_Insert (z : Zp) : Run unit := call (fun _ _ => tt) (fun _ => EvInsert z).

Definition peer_Remove (z : Zp) : Run unit := call (fun _ _ => tt) (fun _ => EvRemove z).

(** The two [for _, digest := range ...] loops of [updateDigests]; [apply]
    is [r.peer.Insert] in the first and [r.peer.Remove] in the second. *)
Fixpoint each_digest (apply : Zp -> Run unit) (digests : list string) : Run unit :=
  match digests with
  | [] => mret tt
  | digest :: rest =>
      match DigestZp digest with
      | Err err => fail (Notef_bad_digest err digest)
      | Ok digestZp => apply digestZp;; each_digest apply rest
      end
  end.

Definition updateDigests (change : KeyChange) : Run unit :=
  Stats_update change;;
  each_digest peer_Insert (InsertDigests change);;
  each_digest peer_Remove (RemoveDigests change);;
  mret tt.

(** ** The recovery processor (recon.go:309-435) *)

Definition requestChunkSize : nat := 100.

(** [upsertKeys]: the keys read from the buffer are merged one by one; the
    first error ends the loop.  What the store does with a key, notifying its
    subscribers included, is the store's. *)
Fixpoint upsertKeys_range (e : Env) (readKeys : list (Result PrimaryKey)) : Run unit :=
  match readKeys with
  | [] => mret tt
  | Err err :: _ => fail (Mask err)
  | Ok key :: rest =>
      let '(key, err) := openpgp_DropDuplicates e key in
      masked_err err;;
      err ← call (fun e tr => storage_UpsertKey_at e tr key) (fun _ => EvUpsertKey key);
      masked_err err;;
      upsertKeys_range e rest
  end.

Definition upsertKeys (buf : list byte) : Run unit :=
  fun w => upsertKeys_range (env w) (openpgp_ReadKeys (env w) buf) w.

(** [io.CopyN(keyBuf, body, n)]: the next [n] bytes of the body and what is
    left of it; io.EOF when the body is shorter. *)
Definition io_CopyN (body : list byte) (n : Z) : Result (list byte * list byte) :=
  if n <=? 0 then Ok ([], body)
  else if Z.of_nat (length body) <? n then Err ErrEOF
  else Ok (take (Z.to_nat n) body, drop (Z.to_nat n) body).

(** The element loop of [requestChunk] (recon.go:356): each element is
    padded to the full width, loses its last byte, and is written after its
    length. *)
Fixpoint write_elements (e : Env) (chunk : list Zp) (hqBuf : list byte) : list byte :=
  match chunk with
  | [] => hqBuf
  | z :: rest =>
      let zb := Zp_Bytes z in
      let zb := PadSksElement zb in
      let zb := take (length zb - 1) zb in
      let hqBuf := hqBuf ++ recon_WriteInt e (Z.of_nat (length zb)) in
      let hqBuf := hqBuf ++ zb in
      write_elements e rest hqBuf
  end.

(** The key loop of [requestChunk] (recon.go:397), [n] keys to go.  The two
    bytes read from the body after the loop are not looked at, and neither
    is the result of reading them. *)
Fixpoint read_keys (e : Env) (n : nat) (body : list byte) : Run unit :=
  match n with
  | O => mret tt
  | S n' =>
      '(keyLen, body) ← masked (recon_ReadInt e body);
      '(keyBuf, body) ← masked (io_CopyN body keyLen);
      mask_run (upsertKeys keyBuf);;
      read_keys e n' body
  end.

Definition hashquery_url (remoteAddr : string) : string :=
  ("http://" +:+ remoteAddr +:+ "/pks/hashquery")%string.

Definition requestChunk (rcvr : Recover) (chunk : list Zp) : Run unit :=
  fun w =>
  let e := env w in
  (remoteAddr ← masked (HkpAddr rcvr);
   (* Make an sks hashquery request *)
   let hqBuf := recon_WriteInt e (Z.of_nat (length chunk)) in
   let hqBuf := write_elements e chunk hqBuf in
   let url := hashquery_url remoteAddr in
   resp ← call (fun e tr => http_Post_at e tr url "sks/hashquery"%string hqBuf)
               (fun _ => EvPost url "sks/hashquery"%string hqBuf);
   resp ← masked resp;
   bodyBuf ← masked (Body resp);
   if negb (StatusCode resp =? 200) then fail (Newf_error_response remoteAddr bodyBuf)
   else
     '(nkeys, body) ← masked (recon_ReadInt e bodyBuf);
     read_keys e (Z.to_nat nkeys) body) w.

(** How [requestRecovered] folds the error of a chunk into [resultErr]
    (recon.go:333-339). *)
Definition combine_errors (resultErr err : option error) : option error :=
  match err with
  | None => resultErr
  | Some err =>
      match resultErr with
      | None => Some (Mask err)
      | Some resultErr => Some (Notef_details resultErr err)
      end
  end.

Section RequestRecovered.
(** The loop of [requestRecovered], for any round trip [requestChunk]
    acting on any state. *)
Context {S : Type}.
Variable requestChunk : list Zp -> S -> option error * S.

Equations? requestRecovered_loop (items : list Zp) (resultErr : option error) (s : S)
  : option error * S by wf (length items) lt :=
  requestRecovered_loop [] resultErr s := (resultErr, s);
  requestRecovered_loop (z :: zs) resultErr s :=
    let items := z :: zs in
    (* Chunk requests to keep the hashquery message size and peer load reasonable. *)
    let chunksize := requestChunkSize in
    let chunksize := if (length items <? chunksize)%nat then length items else chunksize in
    let chunk := take chunksize items in
    let items := drop chunksize items in
    let r := requestChunk chunk s in
    requestRecovered_loop items (combine_errors resultErr r.1) r.2.
Proof.
  subst items chunksize chunksize0 items0.
  rewrite length_drop. unfold requestChunkSize.
  destruct (_ <? _)%nat; simpl; lia.
Qed.
End RequestRecovered.

Definition requestRecovered (rcvr : Recover) (w : World) : option error * World :=
  requestRecovered_loop (fun chunk => attempt (requestChunk rcvr chunk))
                        (RemoteElements rcvr) None w.

(** What a [select] of one of the two loops takes: the tomb is dying, or the
    other channel delivers. *)
Inductive Select (A : Type) : Type :=
| Dying
| Received (a : A).
Arguments Dying {A}.
Arguments Received {A} a.

(** [handleRecovery], run against the sequence of things its [select] takes.
    [Some err] is [return err]; [None] means that the loop has not returned:
    it waits in [select]. *)
Fixpoint handleRecovery (selected : list (Select Recover)) (w : World)
  : option (option error) * World :=
  match selected with
  | [] => (None, w)
  | Dying :: _ => (Some None, w)
  | Received rcvr :: rest =>
      let '(_, w) := requestRecovered rcvr w in
      handleRecovery rest w
  end.

(** [pruneStats], in the same way; what the timer channel delivers is not
    used. *)
Fixpoint pruneStats (selected : list (Select unit)) (w : World)
  : option (option error) * World :=
  match selected with
  | [] => (None, w)
  | Dying :: _ => (Some None, w)
  | Received _ :: rest =>
      let '(_, w) := Stats_prune w in
      pruneStats rest w
  end.

(** ** Observing the round trips of [requestRecovered] *)

(** A round trip that also notes, in order, every chunk it is called with
    and the error it returned. *)
Definition traced {S : Type} (requestChunk : list Zp -> S -> option error * S)
  : list Zp -> S * list (list Zp * option error)
    -> option error * (S * list (list Zp * option error)) :=
  fun chunk st =>
    let r := requestChunk chunk st.1 in
    (r.1, (r.2, st.2 ++ [(chunk, r.1)])).

(** [requestRecovered] with its round trips observed. *)
Definition requestRecovered_traced (rcvr : Recover) (w : World)
  : option error * (World * list (list Zp * option error)) :=
  requestRecovered_loop (traced (fun chunk => attempt (requestChunk rcvr chunk)))
                        (RemoteElements rcvr) None (w, []).

(** The HTTP requests of a trace: URL, content type and body of every
    [http.Post], in order. *)
Definition posts (tr : list Event) : list (string * string * list byte) :=
  omap (fun ev => match ev with
                  | EvPost url ct body => Some (url, ct, body)
                  | _ => None
                  end) tr.

(** The calls of the reconciliation engine in a trace. *)
Definition engine_calls (tr : list Event) : list Event :=
  List.filter (fun ev => match ev with
                         | EvInsert _ | EvRemove _ => true
                         | _ => false
                         end) tr.

(** The HashQuery request for a chunk, in the words of the specification: an
    integer count of elements, followed by, for each element, an integer
    length and that many raw bytes, the raw bytes being the digest padded to
    the full element width and then truncated by one trailing byte. *)
Definition hashquery_element (z : Zp) : list byte :=
  removelast (PadSksElement (Zp_Bytes z)).

Definition hashquery_request (e : Env) (chunk : list Zp) : list byte :=
  recon_WriteInt e (Z.of_nat (length chunk))
  ++ concat (map (fun z => recon_WriteInt e (Z.of_nat (length (hashquery_element z)))
                           ++ hashquery_element z) chunk).

(** The number of chunks of at most [d] elements that [n] elements make:
    [n / d], rounded up. *)
Definition ceil_div (n d : nat) : nat := ((n + (d - 1)) / d)%nat.

(** A computation that makes no HTTP request and leaves the environment. *)
Definition quiet {A : Type} (m : Run A) : Prop :=
  forall w, env (m w).2 = env w /\ posts (trace (m w).2) = posts (trace w).

(** ** Digests as the pipeline meets them *)

(** What [updateDigests] does with a digest: insert it or remove it. *)
Inductive DigestOp : Type := OpInsert | OpRemove.

(** The digests of a change in the order [updateDigests] handles them: the
    inserted ones, then the removed ones. *)
Definition digest_ops (change : KeyChange) : list (DigestOp * string) :=
  map (pair OpInsert) (InsertDigests change)
  ++ map (pair OpRemove) (RemoveDigests change).

(** The engine call that applies a decoded digest. *)
Definition engine_call (op : DigestOp) (z : Zp) : Event :=
  match op with
  | OpInsert => EvInsert z
  | OpRemove => EvRemove z
  end.

Definition apply_digest (od : DigestOp * string) : option Event :=
  match DigestZp od.2 with
  | Ok z => Some (engine_call od.1 z)
  | Err _ => None
  end.

(** The value of little-endian bytes. *)
Fixpoint le_value (bs : list byte) : N :=
  match bs with
  | [] => 0%N
  | b :: bs => (N_of_byte b + 256 * le_value bs)%N
  end.

(** The bucket of a map at a time; a bucket that is not there counts from
    zero. *)
Definition bucket (m : LoadStatMap) (t : Time) : LoadStat :=
  default {| Inserted := 0; Updated := 0 |} (m !! t).

(** ** An example environment *)

(** An integer framing for the examples: four big-endian bytes. *)
Definition be32 (n : Z) : list byte :=
  [byte_of_N (Z.to_N (n / 16777216)); byte_of_N (Z.to_N (n / 65536));
   byte_of_N (Z.to_N (n / 256)); byte_of_N (Z.to_N n)].

(** An environment in which every call succeeds: the remote peer answers 200
    with an empty body, the stats file does not exist, the tree is empty. *)
Definition example_env : Env :=
  {| time_Now_at := fun tr => 1000 * Hour + Z.of_nat (length tr);
     http_Post_at := fun _ _ _ _ => Ok {| StatusCode := 200; Body := Ok [] |};
     storage_UpsertKey_at := fun _ _ => None;
     tomb_Wait_at := fun _ => None;
     peer_Stop_at := fun _ => None;
     ptree_Close_at := fun _ => None;
     ptree_Root_at := fun _ => Ok 0;
     os_Open_at := fun _ _ => NotExist (ExternalError "no such file");
     os_Create_at := fun _ _ => None;
     json_Encode_at := fun _ _ => None;
     json_Decode := fun _ s => (s, None);
     openpgp_ReadKeys := fun _ => [];
     openpgp_DropDuplicates := fun k => (k, None);
     recon_WriteInt := be32;
     recon_ReadInt := fun body => Ok (0, body);
     filepath_Dir := fun _ => "."%string;
     filepath_Base := fun p => p;
     filepath_Join := fun dir file => (dir +:+ "/" +:+ file)%string |}.

Definition example_world : World :=
  {| env := example_env; trace := []; path := "ptree"; stats := newStats |}.

(** A stats file that holds [Total = 5] and a prefix tree whose root cannot
    be read. *)
Definition unreadable_root_env : Env :=
  {| time_Now_at := time_Now_at example_env;
     http_Post_at := http_Post_at example_env;
     storage_UpsertKey_at := storage_UpsertKey_at example_env;
     tomb_Wait_at := tomb_Wait_at example_env;
     peer_Stop_at := peer_Stop_at example_env;
     ptree_Close_at := ptree_Close_at example_env;
     ptree_Root_at := fun _ => Err (ExternalError "leveldb: closed");
     os_Open_at := fun _ _ => Opened [];
     os_Create_at := os_Create_at example_env;
     json_Encode_at := json_Encode_at example_env;
     json_Decode := fun _ s => ({| Total := 5; Hourly := Hourly s; Daily := Daily s |}, None);
     openpgp_ReadKeys := openpgp_ReadKeys example_env;
     openpgp_DropDuplicates := openpgp_DropDuplicates example_env;
     recon_WriteInt := recon_WriteInt example_env;
     recon_ReadInt := recon_ReadInt example_env;
     filepath_Dir := filepath_Dir example_env;
     filepath_Base := filepath_Base example_env;
     filepath_Join := filepath_Join example_env |}.

Definition unreadable_root_world : World :=
  {| env := unreadable_root_env; trace := []; path := "ptree"; stats := newStats |}.

(** The Recover event of the specification's scenario: 250 remote digests
    and a target address. *)
Definition example_recover : Recover :=
  {| HkpAddr := Ok "10.0.0.1:11371"%string;
     RemoteElements := replicate 250 {| Int := 7; P := P_SKS |} |}.

(** The world after further outside calls. *)
Definition record_all (evs : list Event) (w : World) : World :=
  {| env := env w; trace := trace w ++ evs; path := path w; stats := stats w |}.

(** The engine method that [updateDigests] uses for an operation. *)
Definition peer_apply (op : DigestOp) : Zp -> Run unit :=
  match op with
  | OpInsert => peer_Insert
  | OpRemove => peer_Remove
  end.

(** The total after a change of the given kind ([Stats.update]). *)
Definition count_total (k : KeyChangeKind) (total : Z) : Z :=
  match k with
  | KeyAdded | KeyReplaced => int_incr total
  | KeyOther => total
  end.

(** The statistics after [Stats.update] with the clock readings [t1] and
    [t2]. *)
Definition updated_stats (change : KeyChange) (t1 t2 : Time) (s : Stats) : Stats :=
  {| Total := count_total (kind change) (Total s);
     Hourly := LoadStatMap_update (Hourly s) (Time_Truncate t1 Hour) change;
     Daily := LoadStatMap_update (Daily s) (Time_Truncate t2 (24 * Hour)) change |}.

(** An environment in which the first HTTP request fails and the later ones
    succeed. *)
Definition flaky_env : Env :=
  {| time_Now_at := time_Now_at example_env;
     http_Post_at := fun tr _ _ _ =>
       match posts tr with
       | [] => Err (ExternalError "connection refused")
       | _ => Ok {| StatusCode := 200; Body := Ok [] |}
       end;
     storage_UpsertKey_at := storage_UpsertKey_at example_env;
     tomb_Wait_at := tomb_Wait_at example_env;
     peer_Stop_at := peer_Stop_at example_env;
     ptree_Close_at := ptree_Close_at example_env;
     ptree_Root_at := ptree_Root_at example_env;
     os_Open_at := os_Open_at example_env;
     os_Create_at := os_Create_at example_env;
     json_Encode_at := json_Encode_at example_env;
     json_Decode := json_Decode example_env;
     openpgp_ReadKeys := openpgp_ReadKeys example_env;
     openpgp_DropDuplicates := openpgp_DropDuplicates example_env;
     recon_WriteInt := recon_WriteInt example_env;
     recon_ReadInt := recon_ReadInt example_env;
     filepath_Dir := filepath_Dir example_env;
     filepath_Base := filepath_Base example_env;
     filepath_Join := filepath_Join example_env |}.

Definition flaky_world : World :=
  {| env := flaky_env; trace := []; path := "ptree"; stats := newStats |}.

(** ** Hexadecimal strings *)

(** Every character of the string is a hexadecimal digit. *)
Fixpoint all_hex (s : string) : bool :=
  match s with
  | EmptyString => true
  | String c s => bool_decide (is_Some (fromHexChar c)) && all_hex s
  end.

(** The strings that [hex.DecodeString] takes: hexadecimal digits, an even
    number of them. *)
Definition well_formed_hex (s : string) : bool :=
  Nat.even (String.length s) && all_hex s.

(** ** Keys as [upsertKeys] meets them *)

(** What [upsertKeys] hands to the store for a read result: the key after
    [openpgp.DropDuplicates]; nothing for a read error. *)
Definition deduplicated (e : Env) (readKey : Result PrimaryKey) : option PrimaryKey :=
  match readKey with
  | Ok key => Some (openpgp_DropDuplicates e key).1
  | Err _ => None
  end.

(** A read result that is a key on which [openpgp.DropDuplicates] succeeds. *)
Definition mergeable (e : Env) (readKey : Result PrimaryKey) : Prop :=
  exists key, readKey = Ok key /\ (openpgp_DropDuplicates e key).2 = None.

(** ** LoadStatMap as JSON (recon.go:69-91) *)

Section LoadStatMapJSON.
(** [k.Format(time.RFC3339)] and [time.Parse(time.RFC3339, k)]; [json.Marshal]
    and [json.Unmarshal] on the document, a map from strings to buckets.  A
    [range] over a map is a fold over its entries, in the order of the map;
    after an error the fold keeps what it has, as the [return] does. *)
Variable Format : Time -> string.
Variable Parse : string -> Result Time.
Variable json_Marshal : gmap string LoadStat -> Result (list byte).
Variable json_Unmarshal : list byte -> Result (gmap string LoadStat).

(** The document that [MarshalJSON] builds. *)
Definition MarshalJSON_doc (m : LoadStatMap) : gmap string LoadStat :=
  map_fold (fun k v doc => <[Format k := v]> doc) ∅ m.

Definition LoadStatMap_MarshalJSON (m : LoadStatMap) : Result (list byte) :=
  let doc := MarshalJSON_doc m in
  json_Marshal doc.

(** The loop of [UnmarshalJSON] over the document: the receiver gets a
    bucket for every key that parses, until one does not. *)
Definition UnmarshalJSON_range (doc : gmap string LoadStat) (m : LoadStatMap)
  : option error * LoadStatMap :=
  map_fold (fun k v st =>
              match st.1 with
              | Some _ => st
              | None =>
                  match Parse k with
                  | Err err => (Some err, st.2)
                  | Ok t => (None, <[t := v]> st.2)
                  end
              end) (None, m) doc.

(** [UnmarshalJSON]: the error returned and the receiver afterwards. *)
Definition LoadStatMap_UnmarshalJSON (m : LoadStatMap) (b : list byte)
  : option error * LoadStatMap :=
  match json_Unmarshal b with
  | Err err => (Some err, m)
  | Ok doc => UnmarshalJSON_range doc m
  end.
End LoadStatMapJSON.

#[global] Instance LoadStat_eq_dec : EqDecision LoadStat.
Proof. solve_decision. Defined.

(** A one-bucket map with its JSON document, and library functions that
    agree on it, for the examples. *)
Definition example_buckets : LoadStatMap :=
  {[ 0 := {| Inserted := 1; Updated := 2 |} ]}.

Definition example_doc : gmap string LoadStat :=
  {[ "0001-01-01T00:00:00Z"%string := {| Inserted := 1; Updated := 2 |} ]}.

Definition example_Format (t : Time) : string := "0001-01-01T00:00:00Z".

Definition example_Parse (s : string) : Result Time :=
  if decide (s = "0001-01-01T00:00:00Z"%string) then Ok 0
  else Err (ExternalError "parsing time").

Definition example_Marshal (doc : gmap string LoadStat) : Result (list byte) :=
  if decide (doc = example_doc) then Ok [] else Err (ExternalError "unsupported").

Definition example_Unmarshal (b : list byte) : Result (gmap string LoadStat) :=
  match b with
  | [] => Ok example_doc
  | _ => Ok {[ "yesterday"%string := {| Inserted := 0; Updated := 0 |} ]}
  end.

(** ** Construction of the peer (recon.go:152-188) *)

(** [recon.Settings], of which the package reads [PTreeConfig]. *)
Record Settings : Type := mkSettings { PTreeConfig : N }.

(** What [os.Stat] gives, as [os.IsNotExist] sees its error. *)
Inductive StatResult : Type :=
| StatOk
| StatNotExist (e : error)
| StatFailed (e : error).

(** The outside calls of the construction, in the order they are made;
    [SvPeer] is a call that the new peer makes. *)
Inductive SetupEvent : Type :=
| SvStat (path : string)                     (* os.Stat *)
| SvMkdirAll (path : string) (perm : N)      (* os.MkdirAll *)
| SvLeveldbNew (config : N) (path : string)  (* leveldb.New *)
| SvPTreeCreate                              (* PrefixTree.Create *)
| SvNewPeer (s : Settings)                   (* recon.NewPeer *)
| SvPeer (ev : Event)
| SvSubscribe.                               (* Storage.Subscribe *)

(** What the outside returns to the construction. *)
Record SetupEnv : Type := mkSetupEnv {
  recon_DefaultSettings : Settings;
  os_Stat_at : list SetupEvent -> string -> StatResult;
  os_MkdirAll_at : list SetupEvent -> string -> N -> option error;
  leveldb_New_at : list SetupEvent -> N -> string -> option error;
  ptree_Create_at : list SetupEvent -> option error
}.

(** [newSksPTree]: the error returned and the calls made, after the calls
    [tr].  The mode 0755 is 493. *)
Definition newSksPTree (se : SetupEnv) (path : string) (s : Settings)
    (tr : list SetupEvent) : option error * list SetupEvent :=
  let st := os_Stat_at se tr path in
  let tr := tr ++ [SvStat path] in
  let '(err, tr) :=
    match st with
    | StatNotExist _ =>
        let err := os_MkdirAll_at se tr path 493 in
        (errgo_Mask err, tr ++ [SvMkdirAll path 493])
    | _ => (None, tr)
    end in
  match err with
  | Some err => (Some err, tr)
  | None =>
      (leveldb_New_at se tr (PTreeConfig s) path,
       tr ++ [SvLeveldbNew (PTreeConfig s) path])
  end.

(** [NewPeer]: the peer or the error, and the calls made.  The new peer
    starts with an empty trace; its [stats] field is set by [loadStats]. *)
Definition NewPeer (se : SetupEnv) (e : Env) (path : string) (s : option Settings)
  : Result World * list SetupEvent :=
  let s := match s with
           | None => recon_DefaultSettings se
           | Some s => s
           end in
  let '(err, tr) := newSksPTree se path s [] in
  match err with
  | Some err => (Err (Mask err), tr)
  | None =>
      let err := ptree_Create_at se tr in
      let tr := tr ++ [SvPTreeCreate] in
      match err with
      | Some err => (Err (Mask err), tr)
      | None =>
          let tr := tr ++ [SvNewPeer s] in
          let sksPeer := {| env := e; trace := []; path := path; stats := newStats |} in
          let sksPeer := (loadStats sksPeer).2 in
          let tr := tr ++ map SvPeer (trace sksPeer) in
          let tr := tr ++ [SvSubscribe] in
          (Ok sksPeer, tr)
      end
  end.

(** A setup in which the directory is there and every call succeeds, and one
    in which the directory is missing and cannot be made. *)
Definition example_setup : SetupEnv :=
  {| recon_DefaultSettings := {| PTreeConfig := 0 |};
     os_Stat_at := fun _ _ => StatOk;
     os_MkdirAll_at := fun _ _ _ => None;
     leveldb_New_at := fun _ _ _ => None;
     ptree_Create_at := fun _ => None |}.

Definition readonly_setup : SetupEnv :=
  {| recon_DefaultSettings := {| PTreeConfig := 0 |};
     os_Stat_at := fun _ _ => StatNotExist (ExternalError "no such file or directory");
     os_MkdirAll_at := fun _ _ _ => Some (ExternalError "read-only file system");
     leveldb_New_at := fun _ _ _ => None;
     ptree_Create_at := fun _ => None |}.

(** Inversion of membership in a list built with [++], [::] and [map]. *)
Ltac mem_inv H :=
  repeat first
    [ apply elem_of_app in H as [H|H]
    | apply elem_of_cons in H as [H|H]
    | apply elem_of_nil in H; destruct H
    | apply list_elem_of_fmap in H as (? & ? & H) ];
  try discriminate.

(** * Properties *)

(** ** The loop of requestRecovered *)

Section LoopLemmas.
Context {S : Type}.
Variable rc : list Zp -> S -> option error * S.

Lemma requestRecovered_loop_nil resultErr s :
  requestRecovered_loop rc [] resultErr s = (resultErr, s).
Proof. by simp requestRecovered_loop. Qed.

Lemma requestRecovered_loop_step items resultErr s :
  items ≠ [] ->
  requestRecovered_loop rc items resultErr s =
    let n := Nat.min requestChunkSize (length items) in
    let r := rc (take n items) s in
    requestRecovered_loop rc (drop n items) (combine_errors resultErr r.1) r.2.
Proof.
  destruct items as [|z zs]; [done|]. intros _.
  simp requestRecovered_loop. cbv zeta.
  replace (if (length (z :: zs) <? requestChunkSize)%nat then length (z :: zs) else requestChunkSize)
    with (Nat.min requestChunkSize (length (z :: zs))); [done|].
  destruct (Nat.ltb_spec (length (z :: zs)) requestChunkSize); lia.
Qed.
End LoopLemmas.

Lemma ceil_step (n : nat) :
  (0 < n)%nat ->
  ((n + 99) / 100 = S ((n - Nat.min 100 n + 99) / 100))%nat.
Proof.
  intros Hn. destruct (Nat.min_spec 100 n) as [[Hlt ->]|[Hle ->]].
  - replace (n + 99)%nat with ((n - 100 + 99) + 1 * 100)%nat by lia.
    rewrite Nat.div_add by lia. lia.
  - replace (n - n + 99)%nat with 99%nat by lia.
    change (99 / 100)%nat with 0%nat.
    symmetry. apply (Nat.div_unique _ _ _ (n - 1)); lia.
Qed.


Section TracedLoop.
Context {S : Type}.
Variable rc : list Zp -> S -> option error * S.

Lemma traced_loop (n : nat) :
  forall items, (length items <= n)%nat ->
  forall resultErr s calls,
  let r := requestRecovered_loop (traced rc) items resultErr (s, calls) in
  exists cs,
    r.2.2 = calls ++ cs /\
    (r.1, r.2.1) = requestRecovered_loop rc items resultErr s /\
    r.1 = foldl combine_errors resultErr cs.*2 /\
    r.2.1 = foldl (fun s chunk => (rc chunk s).2) s cs.*1 /\
    length cs = ceil_div (length items) requestChunkSize /\
    concat cs.*1 = items /\
    (forall k c, cs.*1 !! k = Some c ->
       c = take requestChunkSize (drop (requestChunkSize * k) items) /\
       length c = Nat.min requestChunkSize (length items - requestChunkSize * k)).
Proof.
  induction n as [|n IH]; intros items Hlen resultErr s calls.
  - destruct items; [|simpl in Hlen; lia].
    exists []. cbv zeta. rewrite !requestRecovered_loop_nil. simpl.
    rewrite app_nil_r. by split_and!.
  - destruct (decide (items = [])) as [->|Hne].
    { exists []. cbv zeta. rewrite !requestRecovered_loop_nil. simpl.
      rewrite app_nil_r. by split_and!. }
    cbv zeta. rewrite (requestRecovered_loop_step rc) by done.
    rewrite !(requestRecovered_loop_step (traced rc)) by done. cbv zeta.
    set (m := Nat.min requestChunkSize (length items)).
    assert (Hm : (0 < m <= length items)%nat).
    { subst m. unfold requestChunkSize. destruct items; [done|cbn [length]; lia]. }
    unfold traced at 2 3 4. cbn [fst snd].
    set (r := rc (take m items) s).
    assert (Hd : (length (drop m items) <= n)%nat).
    { rewrite length_drop. lia. }
    destruct (IH (drop m items) Hd
                 (combine_errors resultErr r.1) r.2
                 (calls ++ [(take m items, r.1)]))
      as (cs & H1 & H2 & H3 & H4 & H5 & H6 & H7).
    exists ((take m items, r.1) :: cs). split_and!.
    + rewrite H1. by rewrite <- app_assoc.
    + exact H2.
    + exact H3.
    + exact H4.
    + simpl. rewrite H5, length_drop. unfold ceil_div, requestChunkSize.
      change (100 - 1)%nat with 99%nat. subst m. unfold requestChunkSize.
      symmetry. apply ceil_step. lia.
    + rewrite fmap_cons. simpl. rewrite H6. apply take_drop.
    + intros [|k] c; rewrite fmap_cons.
      * intros Hk. apply (inj Some) in Hk. subst c.
        change ((take m items, r.1).1) with (take m items).
        rewrite Nat.mul_0_r, drop_0, length_take. subst m. split.
        -- destruct (Nat.min_spec requestChunkSize (length items)) as [[? ->]|[? ->]];
             [done|]. by rewrite !take_ge by lia.
        -- unfold requestChunkSize. lia.
      * intros Hk. change (cs.*1 !! k = Some c) in Hk.
        destruct (H7 _ _ Hk) as [Hc Hl]. rewrite length_drop in Hl.
        assert (Hcs : (0 < length cs)%nat).
        { apply lookup_lt_Some in Hk. rewrite length_fmap in Hk. lia. }
        assert (Hm' : m = requestChunkSize).
        { destruct (decide (m = requestChunkSize)) as [|Hne']; [done|].
          assert (Hml : m = length items) by (subst m; lia).
          rewrite H5, length_drop, <- Hml, Nat.sub_diag in Hcs.
          unfold ceil_div, requestChunkSize in Hcs. simpl in Hcs. lia. }
        rewrite Hm' in *. split.
        -- rewrite Hc, drop_drop. f_equal. f_equal. lia.
        -- rewrite Hl. unfold requestChunkSize. lia.
Qed.
End TracedLoop.

Lemma combine_errors_fold errs : forall resultErr,
  is_Some (foldl combine_errors resultErr errs) <->
  is_Some resultErr \/ Exists is_Some errs.
Proof.
  induction errs as [|err errs IH]; intros resultErr; simpl.
  - rewrite Exists_nil. tauto.
  - rewrite IH, Exists_cons.
    pose proof (is_Some_None (A:=error)) as HN.
    assert (HS : forall x : error, is_Some (Some x)) by eauto.
    destruct err as [e|], resultErr as [r|]; simpl; intuition eauto.
Qed.

(** ** The trace under the operations *)

Lemma posts_app tr1 tr2 : posts (tr1 ++ tr2) = posts tr1 ++ posts tr2.
Proof. unfold posts. apply omap_app. Qed.


Lemma quiet_ret {A : Type} (a : A) : quiet (mret a).
Proof. by intros w. Qed.

Lemma quiet_fail {A : Type} (e : error) : quiet (@fail A e).
Proof. by intros w. Qed.

Lemma quiet_bind {A B : Type} (m : Run A) (k : A -> Run B) :
  quiet m -> (forall a, quiet (k a)) -> quiet (m ≫= k).
Proof.
  intros Hm Hk w. unfold mbind, Run_bind.
  destruct (Hm w) as [He Hp]. destruct (m w) as [[a|e] w']; simpl in *.
  - destruct (Hk a w') as [He' Hp']. split; congruence.
  - done.
Qed.

Lemma quiet_masked {A : Type} (r : Result A) : quiet (masked r).
Proof. destruct r; [apply quiet_ret | apply quiet_fail]. Qed.

Lemma quiet_masked_err err : quiet (masked_err err).
Proof. destruct err; [apply quiet_fail | apply quiet_ret]. Qed.

Lemma quiet_mask_run {A : Type} (m : Run A) : quiet m -> quiet (mask_run m).
Proof.
  intros Hm w. unfold mask_run. specialize (Hm w).
  by destruct (m w) as [[a|e] w'].
Qed.

Lemma quiet_call {A : Type} (answer : Env -> list Event -> A) (ev : A -> Event) :
  (forall a, posts [ev a] = []) -> quiet (call answer ev).
Proof.
  intros Hev w. unfold call, record. simpl. split; [done|].
  by rewrite posts_app, Hev, app_nil_r.
Qed.

Lemma quiet_upsertKeys_range e readKeys : quiet (upsertKeys_range e readKeys).
Proof.
  induction readKeys as [|[key|err] rest IH]; simpl.
  - apply quiet_ret.
  - destruct (openpgp_DropDuplicates e key) as [key' err].
    apply quiet_bind; [apply quiet_masked_err|]. intros _.
    apply quiet_bind; [by apply quiet_call|]. intros err'.
    apply quiet_bind; [apply quiet_masked_err|]. intros _. exact IH.
  - apply quiet_fail.
Qed.

Lemma quiet_upsertKeys buf : quiet (upsertKeys buf).
Proof. intros w. unfold upsertKeys. apply quiet_upsertKeys_range. Qed.

Lemma quiet_read_keys e n : forall body, quiet (read_keys e n body).
Proof.
  induction n as [|n IH]; intros body; simpl.
  - apply quiet_ret.
  - apply quiet_bind; [apply quiet_masked|]. intros [keyLen body'].
    apply quiet_bind; [apply quiet_masked|]. intros [keyBuf body''].
    apply quiet_bind; [apply quiet_mask_run, quiet_upsertKeys|]. intros _.
    apply IH.
Qed.

Lemma write_elements_spec e chunk : forall hqBuf,
  write_elements e chunk hqBuf =
    hqBuf ++ concat (map (fun z => recon_WriteInt e (Z.of_nat (length (hashquery_element z)))
                                   ++ hashquery_element z) chunk).
Proof.
  assert (Htake : forall l : list byte, take (length l - 1) l = removelast l).
  { intros l. destruct l as [|x l _] using rev_ind; [done|].
    rewrite removelast_last, length_app. cbn [length].
    replace (length l + 1 - 1)%nat with (length l) by lia.
    apply take_app_length. }
  induction chunk as [|z rest IH]; intros hqBuf; simpl.
  - by rewrite app_nil_r.
  - rewrite IH. unfold hashquery_element. rewrite !Htake.
    by rewrite <- !app_assoc.
Qed.

Lemma Run_bind_ret {A B : Type} (a : A) (k : A -> Run B) w :
  (mret a ≫= k) w = k a w.
Proof. done. Qed.

Lemma Run_bind_call {A B : Type} (answer : Env -> list Event -> A) ev (k : A -> Run B) w :
  (call answer ev ≫= k) w =
    k (answer (env w) (trace w)) (record (ev (answer (env w) (trace w))) w).
Proof. done. Qed.

(** One round trip with a resolved address makes exactly one HTTP request,
    to the hash-query URL of that address, with the encoded chunk as body. *)
Lemma requestChunk_posts rcvr chunk w remoteAddr :
  HkpAddr rcvr = Ok remoteAddr ->
  let w' := (requestChunk rcvr chunk w).2 in
  env w' = env w /\
  posts (trace w') =
    posts (trace w) ++ [(hashquery_url remoteAddr, "sks/hashquery"%string,
                         hashquery_request (env w) chunk)].
Proof.
  intros Haddr. unfold requestChunk. rewrite Haddr. cbv zeta.
  change (masked (Ok remoteAddr)) with (mret (M:=Run) remoteAddr).
  rewrite Run_bind_ret, Run_bind_call.
  rewrite write_elements_spec. fold (hashquery_request (env w) chunk).
  set (w1 := record _ w).
  assert (H1 : env w1 = env w /\ posts (trace w1) =
    posts (trace w) ++ [(hashquery_url remoteAddr, "sks/hashquery"%string,
                         hashquery_request (env w) chunk)]).
  { subst w1. unfold record. simpl. split; [done|]. by rewrite posts_app. }
  destruct H1 as [He1 Hp1].
  match goal with |- env (?m w1).2 = _ /\ _ => assert (Hq : quiet m) end.
  { apply quiet_bind; [apply quiet_masked|]. intros resp.
    apply quiet_bind; [apply quiet_masked|]. intros bodyBuf.
    destruct (negb _); [apply quiet_fail|].
    apply quiet_bind; [apply quiet_masked|]. intros [nkeys body].
    apply quiet_read_keys. }
  destruct (Hq w1) as [-> ->]. by rewrite He1, Hp1.
Qed.

Lemma attempt_snd {A : Type} (m : Run A) w : (attempt m w).2 = (m w).2.
Proof. unfold attempt. by destruct (m w) as [[a|e] w']. Qed.

Lemma requestChunks_posts rcvr remoteAddr :
  HkpAddr rcvr = Ok remoteAddr ->
  forall chunks w,
  let w' := foldl (fun s chunk => (attempt (requestChunk rcvr chunk) s).2) w chunks in
  env w' = env w /\
  posts (trace w') =
    posts (trace w) ++
    map (fun chunk => (hashquery_url remoteAddr, "sks/hashquery"%string,
                       hashquery_request (env w) chunk)) chunks.
Proof.
  intros Haddr chunks. induction chunks as [|chunk chunks IH]; intros w; simpl.
  - by rewrite app_nil_r.
  - rewrite attempt_snd.
    destruct (requestChunk_posts rcvr chunk w remoteAddr Haddr) as [He Hp].
    destruct (IH (requestChunk rcvr chunk w).2) as [He' Hp'].
    split; [congruence|]. rewrite Hp', Hp, He. by rewrite <- app_assoc.
Qed.

(** C1. For a Recover event with N remote digests, [requestRecovered] calls
    the HashQuery round trip exactly ceil(N/100) times; the k-th call (from 0)
    carries min(100, N - 100k) elements, and the chunks, concatenated in the
    order of the calls, are the digest sequence of the event.  When the
    address of the remote peer resolves, every call makes one HTTP request,
    so that the requests made are the encoded chunks, in that order. *)
Theorem requestRecovered_chunks (rcvr : Recover) (w : World) :
  let items := RemoteElements rcvr in
  let r := requestRecovered_traced rcvr w in
  let chunks := r.2.2.*1 in
  (r.1, r.2.1) = requestRecovered rcvr w /\
  length chunks = ceil_div (length items) 100 /\
  (forall k chunk, chunks !! k = Some chunk ->
     length chunk = Nat.min 100 (length items - 100 * k)) /\
  concat chunks = items /\
  (forall remoteAddr, HkpAddr rcvr = Ok remoteAddr ->
     posts (trace r.2.1) =
       posts (trace w) ++
       map (fun chunk => (hashquery_url remoteAddr, "sks/hashquery"%string,
                          hashquery_request (env w) chunk)) chunks).
Proof.
  cbv zeta. unfold requestRecovered_traced, requestRecovered.
  destruct (traced_loop (fun chunk => attempt (requestChunk rcvr chunk))
              _ (RemoteElements rcvr) (Nat.le_refl _) None w [])
    as (cs & H1 & H2 & _ & H4 & H5 & H6 & H7).
  rewrite H1, app_nil_l. split_and!.
  - exact H2.
  - by rewrite length_fmap.
  - intros k chunk Hk. by destruct (H7 k chunk Hk).
  - exact H6.
  - intros remoteAddr Haddr. rewrite H4.
    by destruct (requestChunks_posts rcvr remoteAddr Haddr cs.*1 w).
Qed.

(** The scenario of the specification: 250 digests and a target address
    give three requests. *)
Lemma requestRecovered_chunks_witness :
  let r := requestRecovered_traced example_recover example_world in
  length r.2.2.*1 = 3%nat /\
  posts (trace r.2.1) =
    map (fun chunk => (hashquery_url "10.0.0.1:11371", "sks/hashquery"%string,
                       hashquery_request example_env chunk)) r.2.2.*1.
Proof.
  destruct (requestRecovered_chunks example_recover example_world)
    as (_ & Hn & _ & _ & Hp).
  split; [exact Hn | exact (Hp _ eq_refl)].
Defined.

(** C2. Whatever errors the round trips return, every chunk of the event is
    attempted: the k-th call is made with elements 100k .. 100k+99 of the
    digest sequence, for every k below ceil(N/100); in particular the chunks
    after a failed one are attempted.  [requestRecovered] returns an error
    exactly when at least one round trip returned one. *)
Theorem requestRecovered_partial_failure (rcvr : Recover) (w : World) :
  let items := RemoteElements rcvr in
  let m := ceil_div (length items) 100 in
  let r := requestRecovered_traced rcvr w in
  let calls := r.2.2 in
  (r.1, r.2.1) = requestRecovered rcvr w /\
  length calls = m /\
  (forall k, (k < m)%nat ->
     exists err, calls !! k = Some (take 100 (drop (100 * k) items), err)) /\
  (forall k chunk e, calls !! k = Some (chunk, Some e) ->
     forall j, (k < j < m)%nat -> is_Some (calls !! j)) /\
  (is_Some (requestRecovered rcvr w).1 <->
     exists k chunk e, calls !! k = Some (chunk, Some e)).
Proof.
  cbv zeta. unfold requestRecovered_traced, requestRecovered.
  destruct (traced_loop (fun chunk => attempt (requestChunk rcvr chunk))
              _ (RemoteElements rcvr) (Nat.le_refl _) None w [])
    as (cs & H1 & H2 & H3 & _ & H5 & _ & H7).
  rewrite H1, app_nil_l. rewrite <- H2. cbn [fst]. rewrite H3.
  fold requestChunkSize. rewrite <- H5.
  assert (Hall : forall k, (k < length cs)%nat ->
            exists err, cs !! k =
              Some (take requestChunkSize
                      (drop (requestChunkSize * k) (RemoteElements rcvr)), err)).
  { intros k Hk. destruct (lookup_lt_is_Some_2 cs k Hk) as [[c err] Hc].
    exists err. rewrite Hc. f_equal. f_equal.
    apply (H7 k c). by rewrite list_lookup_fmap, Hc. }
  split_and!; [done..| |].
  - intros k chunk e _ j Hj. apply lookup_lt_is_Some_2. lia.
  - rewrite combine_errors_fold, Exists_exists. split.
    + intros [[? [=]]|(err & Hin & [e ->])].
      apply list_elem_of_fmap in Hin as ([chunk err] & Heq & Hin).
      simpl in Heq. subst err.
      apply list_elem_of_lookup in Hin as [k Hk]. eauto.
    + intros (k & chunk & e & Hk). right. exists (Some e). split; [|eauto].
      apply list_elem_of_fmap. exists (chunk, Some e). split; [done|].
      apply list_elem_of_lookup. eauto.
Qed.

(** The first of three round trips fails: the other two are made, and the
    event ends with an error. *)
Lemma requestRecovered_partial_failure_witness :
  let calls := (requestRecovered_traced example_recover flaky_world).2.2 in
  calls !! 0%nat =
    Some (replicate 100 {| Int := 7; P := P_SKS |},
          Some (Mask (ExternalError "connection refused"))) /\
  is_Some (calls !! 1%nat) /\
  is_Some (calls !! 2%nat) /\
  is_Some (requestRecovered example_recover flaky_world).1.
Proof.
  intros calls.
  assert (H0 : calls !! 0%nat =
            Some (replicate 100 {| Int := 7; P := P_SKS |},
                  Some (Mask (ExternalError "connection refused"))))
    by (vm_compute; reflexivity).
  destruct (requestRecovered_partial_failure example_recover flaky_world)
    as (_ & _ & _ & Hafter & Hiff).
  split_and!.
  - exact H0.
  - apply (Hafter 0%nat _ _ H0 1%nat). vm_compute. lia.
  - apply (Hafter 0%nat _ _ H0 2%nat). vm_compute. lia.
  - apply Hiff. eauto.
Defined.

(** ** The HashQuery request *)

(** C7. A round trip for a chunk, to a peer whose address resolves, makes
    one HTTP request, and its body is the count of the elements followed by,
    for each element in order, the length of its raw bytes and the raw
    bytes; the raw bytes are the bytes of the element, padded to the full
    element width, without their last byte. *)
Theorem requestChunk_request (rcvr : Recover) (chunk : list Zp) (w : World)
    (remoteAddr : string) :
  HkpAddr rcvr = Ok remoteAddr ->
  let raw := fun z => take (length (PadSksElement (Zp_Bytes z)) - 1)
                           (PadSksElement (Zp_Bytes z)) in
  let int := recon_WriteInt (env w) in
  posts (trace (requestChunk rcvr chunk w).2) =
    posts (trace w) ++
    [(hashquery_url remoteAddr, "sks/hashquery"%string,
      int (Z.of_nat (length chunk))
      ++ concat (map (fun z => int (Z.of_nat (length (raw z))) ++ raw z) chunk))] /\
  (forall z, exists last, PadSksElement (Zp_Bytes z) = raw z ++ [last]) /\
  (forall z, (SksZpNbytes <= length (PadSksElement (Zp_Bytes z)))%nat).
Proof.
  intros Haddr raw int.
  assert (Hpad : forall z, (SksZpNbytes <= length (PadSksElement (Zp_Bytes z)))%nat).
  { intros z. unfold PadSksElement. rewrite length_app, length_replicate. lia. }
  assert (Hraw : forall z, raw z = hashquery_element z).
  { intros z. subst raw. unfold hashquery_element. cbv beta.
    generalize (PadSksElement (Zp_Bytes z)). intros l.
    destruct l as [|x l _] using rev_ind; [done|].
    rewrite removelast_last, length_app. cbn [length].
    replace (length l + 1 - 1)%nat with (length l) by lia.
    apply take_app_length. }
  split_and!.
  - destruct (requestChunk_posts rcvr chunk w remoteAddr Haddr) as [_ ->].
    unfold hashquery_request. do 5 f_equal. subst int.
    apply map_ext. intros z. by rewrite Hraw.
  - intros z. rewrite Hraw. unfold hashquery_element.
    specialize (Hpad z). destruct (PadSksElement (Zp_Bytes z)) as [|x l] using rev_ind.
    + unfold SksZpNbytes in Hpad. simpl in Hpad. lia.
    + exists x. by rewrite removelast_last.
  - exact Hpad.
Qed.

Lemma requestChunk_request_witness :
  posts (trace (requestChunk example_recover [ {| Int := 258; P := P_SKS |} ]
                             example_world).2) =
    [(hashquery_url "10.0.0.1:11371", "sks/hashquery"%string,
      be32 1 ++ be32 16 ++ [byte_of_N 2; byte_of_N 1] ++ replicate 14 Byte.x00)].
Proof.
  destruct (requestChunk_request example_recover [ {| Int := 258; P := P_SKS |} ]
              example_world "10.0.0.1:11371" eq_refl) as [H _].
  exact H.
Defined.

(** ** The recovery loop *)

(** C10. [handleRecovery] drops what [requestRecovered] returns.  Given only
    Recover events the loop handles each of them in turn, failed or not, and
    does not return; when the tomb is dying it returns, without an error;
    and it never returns in another way. *)
Theorem handleRecovery_discards_errors (rcvrs : list Recover) (w : World) :
  let w' := foldl (fun w rcvr => (requestRecovered rcvr w).2) w rcvrs in
  handleRecovery (map Received rcvrs) w = (None, w') /\
  (forall rest, handleRecovery (map Received rcvrs ++ Dying :: rest) w = (Some None, w')) /\
  (forall selected err,
     (handleRecovery selected w).1 = Some err -> err = None /\ Dying ∈ selected).
Proof.
  split_and!.
  - revert w. induction rcvrs as [|rcvr rcvrs IH]; intros w; simpl; [done|].
    destruct (requestRecovered rcvr w) as [err w1]. apply IH.
  - intros rest. revert w.
    induction rcvrs as [|rcvr rcvrs IH]; intros w; simpl; [done|].
    destruct (requestRecovered rcvr w) as [err w1]. apply IH.
  - intros selected. revert w.
    induction selected as [|[|rcvr] selected IH]; intros w err; simpl.
    + done.
    + intros [= <-]. split; [done|]. apply list_elem_of_here.
    + destruct (requestRecovered rcvr w) as [err1 w1]. intros H.
      destruct (IH w1 err H) as [-> Hin]. split; [done|].
      by apply list_elem_of_further.
Qed.

(** An event whose address does not resolve fails; the loop goes on to the
    next event and returns nil when the tomb is dying. *)
Lemma handleRecovery_discards_errors_witness :
  let bad := {| HkpAddr := Err (ExternalError "missing port in address");
                RemoteElements := [ {| Int := 7; P := P_SKS |} ] |} in
  let selected := [Received bad; Received example_recover; Dying] in
  is_Some (requestRecovered bad example_world).1 /\
  (handleRecovery selected example_world).1 = Some None /\
  (None = None :> option error /\ Dying ∈ selected).
Proof.
  intros bad selected.
  destruct (handleRecovery_discards_errors [bad; example_recover] example_world)
    as (_ & Hdying & Honly).
  split; [|split].
  - by eexists.
  - change selected with (map Received [bad; example_recover] ++ [Dying]).
    by rewrite Hdying.
  - apply (Honly selected None). vm_compute. reflexivity.
Defined.

(** ** The digest-update pipeline *)

Lemma Stats_update_run (change : KeyChange) (w : World) :
  let t1 := time_Now_at (env w) (trace w) in
  let t2 := time_Now_at (env w) (trace w ++ [EvNow t1]) in
  Stats_update change w =
    (Ok tt, set_stats (updated_stats change t1 t2 (stats w))
                      (record_all [EvNow t1; EvNow t2] w)).
Proof.
  cbv zeta. unfold Stats_update, time_Now, set_stats, record_all, updated_stats.
  unfold modify_stats, mbind, Run_bind, set_stats, call, record.
  cbn [fst snd env trace path stats Total Hourly Daily].
  rewrite <- app_assoc. by destruct (kind change).
Qed.

Lemma record_all_app evs1 evs2 w :
  record_all evs2 (record_all evs1 w) = record_all (evs1 ++ evs2) w.
Proof. unfold record_all. simpl. by rewrite app_assoc. Qed.

Lemma record_all_nil w : record_all [] w = w.
Proof. unfold record_all. rewrite app_nil_r. by destruct w. Qed.

Lemma peer_apply_run op z w :
  peer_apply op z w = (Ok tt, record_all [engine_call op z] w).
Proof. by destruct op. Qed.

(** A loop over digests that all decode applies each of them. *)
Lemma each_digest_valid op digests : forall w,
  Forall (fun d => exists z, DigestZp d = Ok z) digests ->
  each_digest (peer_apply op) digests w =
    (Ok tt, record_all (omap apply_digest (map (pair op) digests)) w).
Proof.
  induction digests as [|d digests IH]; intros w Hall; simpl.
  - by rewrite record_all_nil.
  - apply Forall_cons in Hall as [[z Hz] Hall].
    unfold apply_digest at 1. simpl. rewrite Hz.
    unfold mbind, Run_bind. rewrite peer_apply_run, IH by done.
    by rewrite record_all_app.
Qed.

(** A loop that meets a digest that does not decode applies the digests
    before it and returns the error. *)
Lemma each_digest_malformed op done bad rest e : forall w,
  Forall (fun d => exists z, DigestZp d = Ok z) done ->
  DigestZp bad = Err e ->
  each_digest (peer_apply op) (done ++ bad :: rest) w =
    (Err (Notef_bad_digest e bad),
     record_all (omap apply_digest (map (pair op) done)) w).
Proof.
  induction done as [|d done IH]; intros w Hall Hbad; simpl.
  - by rewrite Hbad, record_all_nil.
  - apply Forall_cons in Hall as [[z Hz] Hall].
    unfold apply_digest at 1. simpl. rewrite Hz.
    unfold mbind, Run_bind. rewrite peer_apply_run, IH by done.
    by rewrite record_all_app.
Qed.

Lemma engine_calls_app tr1 tr2 :
  engine_calls (tr1 ++ tr2) = engine_calls tr1 ++ engine_calls tr2.
Proof. unfold engine_calls. apply List.filter_app. Qed.

Lemma engine_calls_applied ods :
  engine_calls (omap apply_digest ods) = omap apply_digest ods.
Proof.
  induction ods as [|[op d] ods IH]; [done|].
  change (omap apply_digest ((op, d) :: ods))
    with (match apply_digest (op, d) with
          | Some ev => ev :: omap apply_digest ods
          | None => omap apply_digest ods
          end).
  destruct (apply_digest (op, d)) as [ev|] eqn:Hev; [|done].
  unfold apply_digest in Hev. cbn [fst snd] in Hev.
  destruct (DigestZp d) as [z|e]; [|done].
  injection Hev as <-. unfold engine_calls in *. cbn [List.filter].
  rewrite IH. by destruct op.
Qed.

Lemma Forall_valid_pair op (ds : list string) :
  Forall (fun od : DigestOp * string => exists z, DigestZp od.2 = Ok z) (map (pair op) ds) ->
  Forall (fun d => exists z, DigestZp d = Ok z) ds.
Proof. rewrite Forall_fmap. intros H. eapply Forall_impl; [exact H|]. by intros d. Qed.

Lemma DigestZp_malformed digest e :
  hex_DecodeString digest = Err e -> DigestZp digest = Err (Mask e).
Proof. intros H. unfold DigestZp. by rewrite H. Qed.

Lemma omap_apply_valid ods :
  Forall (fun od : DigestOp * string => exists z, DigestZp od.2 = Ok z) ods ->
  length (omap apply_digest ods) = length ods.
Proof.
  induction 1 as [|od ods [z Hz] _ IH]; [done|].
  cbn [omap list_omap]. unfold apply_digest at 1. rewrite Hz. simpl. by rewrite IH.
Qed.

(** A digest of a change is an inserted one or a removed one. *)
Lemma digest_ops_split change done op bad rest :
  digest_ops change = done ++ (op, bad) :: rest ->
  (exists done' rest',
      op = OpInsert /\ done = map (pair OpInsert) done' /\
      InsertDigests change = done' ++ bad :: rest') \/
  (exists done' rest',
      op = OpRemove /\
      done = map (pair OpInsert) (InsertDigests change) ++ map (pair OpRemove) done' /\
      RemoveDigests change = done' ++ bad :: rest').
Proof.
  unfold digest_ops. intros Hops.
  apply app_eq_app in Hops as [l [[H1 H2]|[H1 H2]]].
  - destruct l as [|x l]; simpl in H2.
    + right. rewrite app_nil_r in H1. symmetry in H2.
      apply fmap_cons_inv in H2 as (bad' & rest' & [= -> ->] & _ & Hrem).
      exists [], rest'. simpl. by rewrite app_nil_r.
    + left. injection H2 as <- H2.
      apply fmap_app_inv in H1 as (done' & tl & -> & Htl & Hins).
      symmetry in Htl.
      apply fmap_cons_inv in Htl as (bad' & rest' & [= -> ->] & _ & ->).
      by exists done', rest'.
  - right.
    apply fmap_app_inv in H2 as (done' & tl & -> & Htl & Hrem).
    symmetry in Htl.
    apply fmap_cons_inv in Htl as (bad' & rest' & [= -> ->] & _ & ->).
    by exists done', rest'.
Qed.

(** C3. When a digest of a change is not hexadecimal, [updateDigests]
    returns the bad-digest error for the first such digest; the engine has
    then been called for every digest before it (inserted digests first, then
    removed ones) and for no digest after it. *)
Theorem updateDigests_malformed (change : KeyChange) (w : World)
    (done : list (DigestOp * string)) (op : DigestOp) (bad : string)
    (rest : list (DigestOp * string)) (e : error) :
  digest_ops change = done ++ (op, bad) :: rest ->
  Forall (fun od => exists z, DigestZp od.2 = Ok z) done ->
  hex_DecodeString bad = Err e ->
  let r := updateDigests change w in
  r.1 = Err (Notef_bad_digest (Mask e) bad) /\
  engine_calls (trace r.2) = engine_calls (trace w) ++ omap apply_digest done /\
  length (omap apply_digest done) = length done.
Proof.
  intros Hops Hdone Hbad. apply DigestZp_malformed in Hbad.
  assert (Hrun : updateDigests change w =
            (Err (Notef_bad_digest (Mask e) bad),
             record_all (omap apply_digest done) ((Stats_update change w).2))).
  { unfold updateDigests, mbind, Run_bind. rewrite Stats_update_run.
    cbn [snd]. set (w1 := set_stats _ _).
    destruct (digest_ops_split _ _ _ _ _ Hops)
      as [(done' & rest' & -> & -> & Hins)|(done' & rest' & -> & -> & Hrem)].
    - apply Forall_valid_pair in Hdone.
      by rewrite Hins, (each_digest_malformed OpInsert _ _ _ _ _ Hdone Hbad).
    - apply Forall_app in Hdone as [Hd1 Hd2].
      apply Forall_valid_pair in Hd1. apply Forall_valid_pair in Hd2.
      rewrite (each_digest_valid OpInsert) by done.
      rewrite Hrem, (each_digest_malformed OpRemove _ _ _ _ _ Hd2 Hbad).
      by rewrite record_all_app, omap_app. }
  cbv zeta. rewrite Hrun, Stats_update_run. cbn [fst snd].
  split_and!; [done| |by apply omap_apply_valid].
  unfold record_all, set_stats. cbn [trace].
  rewrite !engine_calls_app, engine_calls_applied. simpl. by rewrite app_nil_r.
Qed.

(** The scenario of the specification: a valid added digest and the
    malformed digest "zzzz" in the removal list. *)
Lemma updateDigests_malformed_witness :
  let change := {| kind := KeyReplaced;
                   InsertDigests := ["00112233445566778899aabbccddeeff"%string];
                   RemoveDigests := ["zzzz"%string] |} in
  let r := updateDigests change example_world in
  r.1 = Err (Notef_bad_digest (Mask (InvalidByteError "z")) "zzzz") /\
  engine_calls (trace r.2) =
    omap apply_digest [(OpInsert, "00112233445566778899aabbccddeeff"%string)] /\
  length (omap apply_digest [(OpInsert, "00112233445566778899aabbccddeeff"%string)]) = 1%nat.
Proof.
  intros change.
  apply (updateDigests_malformed change example_world
           [(OpInsert, "00112233445566778899aabbccddeeff"%string)]
           OpRemove "zzzz" [] (InvalidByteError "z")).
  - reflexivity.
  - constructor; [|constructor]. eexists. reflexivity.
  - reflexivity.
Defined.

(** Whatever the digests are, a loop over them only calls the engine. *)
Lemma each_digest_frame op digests : forall w,
  exists calls,
    (each_digest (peer_apply op) digests w).2 = record_all calls w /\
    engine_calls calls = calls.
Proof.
  induction digests as [|d digests IH]; intros w; simpl.
  - exists []. by rewrite record_all_nil.
  - destruct (DigestZp d) as [z|e].
    + unfold mbind, Run_bind. rewrite peer_apply_run.
      destruct (IH (record_all [engine_call op z] w)) as (calls & -> & Hc).
      exists (engine_call op z :: calls). rewrite record_all_app. split; [done|].
      unfold engine_calls in *. cbn [List.filter]. rewrite Hc. by destruct op.
    + exists []. by rewrite record_all_nil.
Qed.

Lemma updateDigests_frame change w :
  exists calls,
    (updateDigests change w).2 =
      record_all calls (Stats_update change w).2 /\
    engine_calls calls = calls.
Proof.
  unfold updateDigests, mbind, Run_bind. rewrite Stats_update_run. cbn [snd].
  set (w1 := set_stats _ _).
  destruct (each_digest_frame OpInsert (InsertDigests change) w1) as (c1 & H1 & Hc1).
  change peer_Insert with (peer_apply OpInsert).
  change peer_Remove with (peer_apply OpRemove).
  destruct (each_digest (peer_apply OpInsert) (InsertDigests change) w1) as [[[]|e] w2];
    simpl in H1; subst w2.
  - destruct (each_digest_frame OpRemove (RemoveDigests change) (record_all c1 w1))
      as (c2 & H2 & Hc2).
    destruct (each_digest (peer_apply OpRemove) (RemoveDigests change) (record_all c1 w1))
      as [[[]|e] w3]; simpl in H2; subst w3.
    all: exists (c1 ++ c2); rewrite record_all_app; split; [done|].
    all: by rewrite engine_calls_app, Hc1, Hc2.
  - by exists c1.
Qed.

Lemma LoadStatMap_update_lookup (m : LoadStatMap) (t : Time) (kc : KeyChange) :
  LoadStatMap_update m t kc !! t =
    Some (match kind kc with
          | KeyAdded => {| Inserted := int_incr (Inserted (bucket m t));
                           Updated := Updated (bucket m t) |}
          | KeyReplaced => {| Inserted := Inserted (bucket m t);
                              Updated := int_incr (Updated (bucket m t)) |}
          | KeyOther => bucket m t
          end).
Proof.
  unfold LoadStatMap_update, bucket. rewrite lookup_insert_eq.
  by destruct (m !! t), (kind kc).
Qed.

(** C9. [updateDigests] reads the clock and counts the change before it
    calls the engine for any digest, and the counts stay whatever happens to
    the digests: after the call, with or without an error, the hourly bucket
    of the first clock reading, the daily bucket of the second and the total
    have been counted up for an added or a replaced key. *)
Theorem updateDigests_counts_first (change : KeyChange) (w : World) :
  let t1 := time_Now_at (env w) (trace w) in
  let t2 := time_Now_at (env w) (trace w ++ [EvNow t1]) in
  let hour := Time_Truncate t1 Hour in
  let day := Time_Truncate t2 (24 * Hour) in
  let s := stats w in
  let r := updateDigests change w in
  let s' := stats r.2 in
  (exists calls, trace r.2 = trace w ++ [EvNow t1; EvNow t2] ++ calls /\
                 engine_calls calls = calls) /\
  s' = stats (Stats_update change w).2 /\
  (kind change = KeyAdded ->
     Total s' = int_incr (Total s) /\
     Hourly s' !! hour =
       Some {| Inserted := int_incr (Inserted (bucket (Hourly s) hour));
               Updated := Updated (bucket (Hourly s) hour) |} /\
     Daily s' !! day =
       Some {| Inserted := int_incr (Inserted (bucket (Daily s) day));
               Updated := Updated (bucket (Daily s) day) |}) /\
  (kind change = KeyReplaced ->
     Total s' = int_incr (Total s) /\
     Hourly s' !! hour =
       Some {| Inserted := Inserted (bucket (Hourly s) hour);
               Updated := int_incr (Updated (bucket (Hourly s) hour)) |} /\
     Daily s' !! day =
       Some {| Inserted := Inserted (bucket (Daily s) day);
               Updated := int_incr (Updated (bucket (Daily s) day)) |}).
Proof.
  cbv zeta. destruct (updateDigests_frame change w) as (calls & -> & Hcalls).
  rewrite Stats_update_run. cbn [snd].
  unfold record_all, set_stats, updated_stats.
  cbn [trace stats Total Hourly Daily]. split_and!.
  - exists calls. by rewrite <- app_assoc.
  - done.
  - intros Hk. rewrite !LoadStatMap_update_lookup, Hk. done.
  - intros Hk. rewrite !LoadStatMap_update_lookup, Hk. done.
Qed.

(** The change of the scenario above is counted although the call fails. *)
Lemma updateDigests_counts_first_witness :
  let change := {| kind := KeyReplaced;
                   InsertDigests := ["00112233445566778899aabbccddeeff"%string];
                   RemoveDigests := ["zzzz"%string] |} in
  let r := updateDigests change example_world in
  r.1 = Err (Notef_bad_digest (Mask (InvalidByteError "z")) "zzzz") /\
  Total (stats r.2) = 1 /\
  Hourly (stats r.2) !! (1000 * Hour) = Some {| Inserted := 0; Updated := 1 |} /\
  Daily (stats r.2) !! (984 * Hour) = Some {| Inserted := 0; Updated := 1 |}.
Proof.
  intros change. split; [reflexivity|].
  destruct (updateDigests_counts_first change example_world) as (_ & _ & _ & H).
  exact (H eq_refl).
Defined.

(** ** Shutdown *)

Lemma logged_ret err : logged err = mret tt.
Proof. by destruct err. Qed.

Lemma record_record_all ev evs w :
  record_all evs (record ev w) = record_all (ev :: evs) w.
Proof. unfold record_all, record. simpl. by rewrite <- app_assoc. Qed.

(** C5. [Stop] performs the four steps of the teardown in order, whatever
    each of them returns: it kills the tomb and waits for the background
    tasks, stops the reconciliation engine, closes the prefix tree, and saves
    the statistics (create the file, encode, close).  It makes no other
    outside call and skips none. *)
Theorem Stop_all_steps (w : World) :
  Stop w =
    (Ok tt,
     record_all [EvKill; EvWait; EvPeerStop; EvPTreeClose;
                 EvCreate (statsFilename (env w) (path w));
                 EvEncode (stats w); EvFileClose] w).
Proof.
  unfold Stop.
  repeat (rewrite Run_bind_call || rewrite logged_ret || rewrite Run_bind_ret).
  unfold saveStats. cbn [env path stats record].
  repeat (rewrite Run_bind_call || rewrite logged_ret || rewrite Run_bind_ret).
  unfold call. cbn [env path stats record].
  by rewrite <- (record_all_nil (record EvFileClose _)), !record_record_all.
Qed.

(** ** Pruning *)

Lemma delete_keys_lookup (bound : Time) (k : Time) (ks : list Time) :
  forall acc : LoadStatMap,
  foldl (fun acc k => if Time_Before k bound then delete k acc else acc) acc ks !! k =
    if decide (k ∈ ks /\ k < bound) then None else acc !! k.
Proof.
  induction ks as [|x ks IH]; intros acc; cbn [foldl].
  - rewrite decide_False; [done|]. intros [H _]. by apply elem_of_nil in H.
  - rewrite IH. destruct (decide (k ∈ ks /\ k < bound)) as [[Hin Hlt]|Hn].
    { rewrite decide_True; [done|]. split; [by apply list_elem_of_further|done]. }
    unfold Time_Before. destruct (Z.ltb_spec x bound) as [Hx|Hx].
    + destruct (decide (k = x)) as [->|Hne].
      * rewrite lookup_delete_eq, decide_True; [done|].
        split; [apply list_elem_of_here|done].
      * rewrite lookup_delete_ne, decide_False; [done| |done].
        intros [Hin Hlt]. apply elem_of_cons in Hin as [?|?]; [done|]. by apply Hn.
    + rewrite decide_False; [done|].
      intros [Hin Hlt]. apply elem_of_cons in Hin as [?|?]; [lia|]. by apply Hn.
Qed.

Lemma delete_before_lookup (bound : Time) (m : LoadStatMap) (k : Time) :
  delete_before bound m !! k = if Time_Before k bound then None else m !! k.
Proof.
  unfold delete_before. rewrite delete_keys_lookup. unfold Time_Before.
  destruct (Z.ltb_spec k bound) as [Hk|Hk].
  - case_decide as H; [done|].
    destruct (m !! k) as [ls|] eqn:Hm; [|done].
    exfalso. apply H. split; [|done].
    apply list_elem_of_fmap. exists (k, ls). split; [done|].
    by apply elem_of_map_to_list.
  - case_decide as H; [|done]. lia.
Qed.

Lemma Stats_prune_run (w : World) :
  let now1 := time_Now_at (env w) (trace w) in
  let now2 := time_Now_at (env w) (trace w ++ [EvNow now1]) in
  Stats_prune w =
    (Ok tt,
     set_stats {| Total := Total (stats w);
                  Hourly := delete_before (Time_Add now1 (-24 * Hour)) (Hourly (stats w));
                  Daily := delete_before (Time_Add now2 (-24 * 7 * Hour)) (Daily (stats w)) |}
               (record_all [EvNow now1; EvNow now2] w)).
Proof.
  cbv zeta. unfold Stats_prune, time_Now, set_stats, record_all.
  unfold modify_stats, mbind, Run_bind, set_stats, call, record.
  cbn [fst snd env trace path stats Total Hourly Daily].
  by rewrite <- app_assoc.
Qed.

(** C6. After [Stats.prune], an hourly bucket whose time is before the clock
    reading minus 24 hours is gone, and so is a daily bucket whose time is
    before the clock reading minus 7 days; every other bucket is there with
    the counters it had, and the total is unchanged.  The clock is read once
    for each of the two bounds. *)
Theorem Stats_prune_buckets (w : World) :
  let now1 := time_Now_at (env w) (trace w) in
  let now2 := time_Now_at (env w) (trace w ++ [EvNow now1]) in
  let s := stats w in
  let s' := stats (Stats_prune w).2 in
  (forall k, k < now1 - 24 * Hour -> Hourly s' !! k = None) /\
  (forall k, k < now2 - 7 * (24 * Hour) -> Daily s' !! k = None) /\
  (forall k, now1 - 24 * Hour <= k -> Hourly s' !! k = Hourly s !! k) /\
  (forall k, now2 - 7 * (24 * Hour) <= k -> Daily s' !! k = Daily s !! k) /\
  Total s' = Total s.
Proof.
  cbv zeta. rewrite Stats_prune_run. cbn [snd]. unfold set_stats.
  cbn [stats Hourly Daily Total]. unfold Time_Add.
  split_and!; try done; intros k Hk; rewrite delete_before_lookup;
    unfold Time_Before;
    match goal with |- context [?a <? ?b] => destruct (Z.ltb_spec a b) end;
    try done; lia.
Qed.

(** A bucket of 30 hours ago goes, a bucket of 2 hours ago stays. *)
Lemma Stats_prune_buckets_witness :
  let w := set_stats {| Total := 3;
                        Hourly := {[ 970 * Hour := {| Inserted := 1; Updated := 0 |};
                                     998 * Hour := {| Inserted := 2; Updated := 0 |} ]};
                        Daily := ∅ |} example_world in
  let s' := stats (Stats_prune w).2 in
  Hourly s' !! (970 * Hour) = None /\
  Hourly s' !! (998 * Hour) = Some {| Inserted := 2; Updated := 0 |}.
Proof.
  intros w.
  destruct (Stats_prune_buckets w) as (H1 & _ & H3 & _).
  split.
  - apply H1. vm_compute. reflexivity.
  - rewrite H3; [reflexivity|]. vm_compute. discriminate.
Defined.

(** ** Loading the statistics *)

(** What [loadStats] leaves in [Peer.stats]. *)
Lemma loadStats_stats (w : World) :
  let fn := statsFilename (env w) (path w) in
  let decoded := match os_Open_at (env w) (trace w) fn with
                 | Opened content => (json_Decode (env w) content newStats).1
                 | _ => newStats
                 end in
  stats (loadStats w).2 =
    match ptree_Root_at (env w) (trace w ++ [EvOpen fn]) with
    | Ok size => {| Total := size; Hourly := Hourly decoded; Daily := Daily decoded |}
    | Err _ => decoded
    end.
Proof.
  cbv zeta. unfold loadStats. rewrite Run_bind_call.
  destruct (os_Open_at (env w) (trace w) (statsFilename (env w) (path w)))
    as [content|err|err].
  - destruct (json_Decode (env w) content newStats) as [stats1 err].
    rewrite logged_ret.
    change (mret tt ≫= fun _ : unit => mret (M:=Run) stats1) with (mret (M:=Run) stats1).
    rewrite Run_bind_ret, Run_bind_call. cbn [env trace record fst].
    by destruct (ptree_Root_at _ _) as [size|err'].
  - rewrite Run_bind_ret, Run_bind_call. cbn [env trace record].
    by destruct (ptree_Root_at _ _) as [size|err'].
  - rewrite logged_ret.
    change (mret tt ≫= fun _ : unit => mret (M:=Run) newStats) with (mret (M:=Run) newStats).
    rewrite Run_bind_ret, Run_bind_call. cbn [env trace record].
    by destruct (ptree_Root_at _ _) as [size|err'].
Qed.

(** C4, amended. When the root of the prefix tree can be read, [loadStats]
    sets [Total] to the size the root reports, whatever the stats file holds
    (missing, unreadable or decoded with an error included).  When reading
    the root fails, [Total] keeps the value decoded from the file, or zero
    without a file.  The buckets are those decoded from the file. *)
Theorem loadStats_total (w : World) :
  let fn := statsFilename (env w) (path w) in
  let root := ptree_Root_at (env w) (trace w ++ [EvOpen fn]) in
  let decoded := match os_Open_at (env w) (trace w) fn with
                 | Opened content => (json_Decode (env w) content newStats).1
                 | _ => newStats
                 end in
  let s' := stats (loadStats w).2 in
  (forall size, root = Ok size -> Total s' = size) /\
  (forall err, root = Err err -> Total s' = Total decoded) /\
  Hourly s' = Hourly decoded /\
  Daily s' = Daily decoded.
Proof.
  cbv zeta. rewrite loadStats_stats. cbv zeta.
  destruct (ptree_Root_at _ _) as [size|err]; split_and!; try done.
  by intros size' [= ->].
Qed.

Lemma loadStats_total_witness :
  Total (stats (loadStats example_world).2) = 0.
Proof.
  destruct (loadStats_total example_world) as [H _].
  exact (H 0 eq_refl).
Defined.

(** C4 as stated fails: with a stats file that holds [Total = 5] and a
    prefix tree whose root cannot be read, [Total] is 5 after loading, the
    value from the file, and no element count was reported by the root. *)
Lemma loadStats_total_from_file :
  let w := unreadable_root_world in
  let fn := statsFilename (env w) (path w) in
  Total (stats (loadStats w).2) = 5 /\
  Total (json_Decode (env w) [] newStats).1 = 5 /\
  ~ (exists size, ptree_Root_at (env w) (trace w ++ [EvOpen fn]) = Ok size /\
                  Total (stats (loadStats w).2) = size).
Proof.
  split_and!; [reflexivity..|]. by intros (size & [=] & _).
Qed.

(** ** The digest codec *)

Section DigestCodec.
Local Open Scope N_scope.

Lemma N_of_byte_lt (b : byte) : N_of_byte b < 256.
Proof. unfold N_of_byte. pose proof (Byte.to_N_bounded b). lia. Qed.

Lemma N_of_byte_of_N (n : N) : N_of_byte (byte_of_N n) = n mod 256.
Proof.
  unfold N_of_byte, byte_of_N.
  destruct (Byte.of_N (n mod 256)) as [b|] eqn:Hb.
  - simpl. by apply Byte.to_of_N.
  - apply Byte.of_N_None_iff in Hb.
    pose proof (N.mod_upper_bound n 256 ltac:(done)). lia.
Qed.

Lemma N_of_byte_inj (a b : byte) : N_of_byte a = N_of_byte b -> a = b.
Proof.
  unfold N_of_byte. intros H.
  pose proof (Byte.of_to_N a) as Ha. pose proof (Byte.of_to_N b) as Hb.
  rewrite H in Ha. congruence.
Qed.

Lemma le_value_app (bs cs : list byte) :
  le_value (bs ++ cs) = le_value bs + 256 ^ N.of_nat (length bs) * le_value cs.
Proof.
  induction bs as [|b bs IH]; simpl le_value.
  - cbn [length]. change (N.of_nat 0) with 0. rewrite N.pow_0_r. lia.
  - rewrite IH. cbn [length]. rewrite Nat2N.inj_succ, N.pow_succ_r'. lia.
Qed.

Lemma le_value_zeros (k : nat) : le_value (replicate k Byte.x00) = 0.
Proof. induction k as [|k IH]; [done|]. simpl. rewrite IH. done. Qed.

Lemma le_value_lt (bs : list byte) : le_value bs < 256 ^ N.of_nat (length bs).
Proof.
  induction bs as [|b bs IH]; simpl le_value; cbn [length].
  - change (N.of_nat 0) with 0. rewrite N.pow_0_r. lia.
  - rewrite Nat2N.inj_succ, N.pow_succ_r'. pose proof (N_of_byte_lt b). lia.
Qed.

Lemma le_value_inj (bs : list byte) : forall cs,
  length bs = length cs -> le_value bs = le_value cs -> bs = cs.
Proof.
  induction bs as [|b bs IH]; intros [|c cs] Hlen Hval; try done.
  simpl in Hval. injection Hlen as Hlen.
  pose proof (N_of_byte_lt b). pose proof (N_of_byte_lt c).
  assert (N_of_byte b = N_of_byte c /\ le_value bs = le_value cs) as [Hb Hv] by lia.
  f_equal; [by apply N_of_byte_inj | by apply IH].
Qed.

Lemma big_SetBytes_from (l : list byte) : forall a,
  fold_left (fun acc b => acc * 256 + N_of_byte b) l a =
    a * 256 ^ N.of_nat (length l) + big_SetBytes l.
Proof.
  unfold big_SetBytes. induction l as [|b l IH]; intros a; cbn [fold_left length].
  - change (N.of_nat 0) with 0. rewrite N.pow_0_r. lia.
  - rewrite IH, (IH (0 * 256 + N_of_byte b)).
    rewrite Nat2N.inj_succ, N.pow_succ_r'. lia.
Qed.

Lemma big_SetBytes_reversed (bs : list byte) :
  big_SetBytes (reversed bs) = le_value bs.
Proof.
  unfold reversed. induction bs as [|b bs IH]; [done|].
  simpl rev. unfold big_SetBytes in *. rewrite fold_left_app, IH. simpl. lia.
Qed.

Lemma size_nat_gt (n : N) : n < 2 ^ N.of_nat (N.size_nat n).
Proof.
  destruct n as [|p]; [done|]. simpl N.size_nat.
  induction p as [p IH|p IH|]; simpl Pos.size_nat;
    rewrite ?Nat2N.inj_succ, ?N.pow_succ_r'; lia.
Qed.

Lemma big_Bytes_go_value (fuel : nat) : forall n acc,
  n < 2 ^ N.of_nat fuel ->
  big_SetBytes (big_Bytes_go fuel n acc) =
    n * 256 ^ N.of_nat (length acc) + big_SetBytes acc.
Proof.
  induction fuel as [|fuel IH]; intros n acc Hn; simpl big_Bytes_go.
  - change (N.of_nat 0) with 0 in Hn. rewrite N.pow_0_r in Hn.
    replace n with 0 by lia. lia.
  - destruct (N.eqb_spec n 0) as [->|Hne]; [lia|].
    rewrite Nat2N.inj_succ, N.pow_succ_r' in Hn.
    rewrite IH.
    + cbn [length]. rewrite Nat2N.inj_succ, N.pow_succ_r'.
      unfold big_SetBytes at 1. cbn [fold_left].
      rewrite big_SetBytes_from, N_of_byte_of_N, N.Div0.mod_mod.
      rewrite (N.div_mod n 256 ltac:(done)) at 3. ring.
    + apply N.Div0.div_lt_upper_bound. lia.
Qed.

Lemma big_Bytes_go_length (fuel : nat) : forall n acc k,
  n < 256 ^ N.of_nat k ->
  (length (big_Bytes_go fuel n acc) <= length acc + k)%nat.
Proof.
  induction fuel as [|fuel IH]; intros n acc k Hn; simpl big_Bytes_go; [lia|].
  destruct (N.eqb_spec n 0) as [->|Hne]; [lia|].
  destruct k as [|k].
  { change (N.of_nat 0) with 0 in Hn. rewrite N.pow_0_r in Hn. lia. }
  rewrite Nat2N.inj_succ, N.pow_succ_r' in Hn.
  specialize (IH (n / 256) (byte_of_N (n mod 256) :: acc) k).
  cbn [length] in IH. etrans; [apply IH|lia].
  by apply N.Div0.div_lt_upper_bound.
Qed.

(** The bytes of an element are its little-endian representation. *)
Lemma Zp_Bytes_value (z : Zp) : le_value (Zp_Bytes z) = Int z.
Proof.
  unfold Zp_Bytes. rewrite <- big_SetBytes_reversed.
  unfold reversed. rewrite rev_involutive. unfold big_Bytes.
  rewrite big_Bytes_go_value by apply size_nat_gt.
  cbn [length]. change (N.of_nat 0) with 0. rewrite N.pow_0_r.
  unfold big_SetBytes. cbn [fold_left]. lia.
Qed.

Lemma Zp_Bytes_length (z : Zp) (k : nat) :
  Int z < 256 ^ N.of_nat k -> (length (Zp_Bytes z) <= k)%nat.
Proof.
  intros Hz. unfold Zp_Bytes, reversed, big_Bytes. rewrite length_rev.
  by apply (big_Bytes_go_length _ _ [] k).
Qed.

Lemma PadSksElement_value (bs : list byte) : le_value (PadSksElement bs) = le_value bs.
Proof. unfold PadSksElement. rewrite le_value_app, le_value_zeros. lia. Qed.

Lemma PadSksElement_length (bs : list byte) :
  length (PadSksElement bs) = Nat.max SksZpNbytes (length bs).
Proof. unfold PadSksElement. rewrite length_app, length_replicate. lia. Qed.

Lemma P_SKS_width : P_SKS < 256 ^ N.of_nat SksZpNbytes.
Proof. done. Qed.

(** Decoding a digest and encoding the element gives the padded bytes back
    exactly when these are a field element in full width. *)
Lemma Zb_Bytes_roundtrip (buf : list byte) :
  PadSksElement (Zp_Bytes (Zb P_SKS (PadSksElement buf))) = PadSksElement buf <->
  (length buf <= SksZpNbytes)%nat /\ le_value buf < P_SKS.
Proof.
  set (z := Zb P_SKS (PadSksElement buf)).
  assert (Hz : Int z = le_value buf mod P_SKS).
  { subst z. unfold Zb. cbn [Int].
    by rewrite big_SetBytes_reversed, PadSksElement_value. }
  assert (HP : Int z < P_SKS).
  { rewrite Hz. by apply N.mod_upper_bound. }
  assert (Hlen : length (PadSksElement (Zp_Bytes z)) = SksZpNbytes).
  { rewrite PadSksElement_length.
    pose proof (Zp_Bytes_length z SksZpNbytes ltac:(pose proof P_SKS_width; lia)). lia. }
  assert (Hval : le_value (PadSksElement (Zp_Bytes z)) = le_value buf mod P_SKS).
  { by rewrite PadSksElement_value, Zp_Bytes_value. }
  split.
  - intros Heq. split.
    + rewrite Heq, PadSksElement_length in Hlen. lia.
    + rewrite Heq, PadSksElement_value in Hval. rewrite Hval.
      by apply N.mod_upper_bound.
  - intros [Hl Hv]. apply le_value_inj.
    + rewrite Hlen, PadSksElement_length. lia.
    + rewrite Hval, PadSksElement_value. by apply N.mod_small.
Qed.

Lemma le_value_16 (buf : list byte) :
  (length buf <= 16)%nat -> le_value buf < P_SKS.
Proof.
  intros Hl. pose proof (le_value_lt buf) as Hlt.
  assert (256 ^ N.of_nat (length buf) <= 256 ^ 16).
  { apply N.pow_le_mono_r; [done|]. lia. }
  assert (256 ^ 16 < P_SKS) by done. lia.
Qed.
End DigestCodec.

(** C8, amended. For a hexadecimal digest string, [DigestZp] gives an
    element, and the bytes of the element, padded to the element width, are
    the padded decoded bytes exactly when the digest decodes to at most 17
    bytes whose little-endian value is below the SKS prime.  Every digest of
    at most 16 bytes (32 hexadecimal digits, an MD5 digest) is of that kind. *)
Theorem DigestZp_roundtrip (digest : string) (buf : list byte) :
  hex_DecodeString digest = Ok buf ->
  exists z,
    DigestZp digest = Ok z /\
    (PadSksElement (Zp_Bytes z) = PadSksElement buf <->
       (length buf <= SksZpNbytes)%nat /\ (le_value buf < P_SKS)%N) /\
    ((length buf <= 16)%nat -> PadSksElement (Zp_Bytes z) = PadSksElement buf).
Proof.
  intros Hhex. unfold DigestZp. rewrite Hhex. eexists. split; [done|].
  split; [apply Zb_Bytes_roundtrip|].
  intros Hl. apply Zb_Bytes_roundtrip. split.
  - unfold SksZpNbytes. lia.
  - by apply le_value_16.
Qed.

Lemma DigestZp_roundtrip_witness :
  exists z,
    DigestZp "00112233445566778899aabbccddeeff" = Ok z /\
    PadSksElement (Zp_Bytes z) =
      PadSksElement (map byte_of_N [0; 17; 34; 51; 68; 85; 102; 119; 136; 153;
                                    170; 187; 204; 221; 238; 255]%N).
Proof.
  destruct (DigestZp_roundtrip "00112233445566778899aabbccddeeff"
              (map byte_of_N [0; 17; 34; 51; 68; 85; 102; 119; 136; 153;
                              170; 187; 204; 221; 238; 255]%N) eq_refl)
    as (z & Hz & _ & H).
  exists z. split; [exact Hz|]. apply H. simpl. lia.
Defined.

(** C8 as stated fails: "ff" 17 times is a hexadecimal string; it decodes
    to 17 bytes whose value is not below the SKS prime, the element is that
    value modulo the prime, and its bytes are other bytes. *)
Lemma DigestZp_roundtrip_fails :
  let digest := "ffffffffffffffffffffffffffffffffff"%string in
  exists buf z,
    hex_DecodeString digest = Ok buf /\
    DigestZp digest = Ok z /\
    PadSksElement (Zp_Bytes z) <> PadSksElement buf.
Proof.
  eexists _, _. split; [reflexivity|]. split; [reflexivity|].
  vm_compute. discriminate.
Qed.

(** ** More on the digest codec *)

Lemma string_pair_ind (Q : string -> Prop) :
  Q EmptyString ->
  (forall c, Q (String c EmptyString)) ->
  (forall a b s, Q s -> Q (String a (String b s))) ->
  forall s, Q s.
Proof.
  intros H0 H1 H2 s.
  assert (H : Q s /\ forall c, Q (String c s)); [|by destruct H].
  induction s as [|c s [IH1 IH2]]; [by split|].
  split; [apply IH2|]. intros a. by apply H2.
Qed.

Lemma bool_decide_is_Some {A : Type} (o : option A) :
  bool_decide (is_Some o) = match o with Some _ => true | None => false end.
Proof.
  destruct o; [by apply bool_decide_eq_true_2|].
  apply bool_decide_eq_false_2. by intros [? [=]].
Qed.

Lemma hex_DecodeString_ok_iff (s : string) :
  (exists buf, hex_DecodeString s = Ok buf) <-> well_formed_hex s = true.
Proof.
  unfold well_formed_hex.
  induction s as [|c|a b s IH] using string_pair_ind.
  - split; [done|]. by exists [].
  - cbn [hex_DecodeString String.length all_hex]. rewrite bool_decide_is_Some.
    split; [|done]. intros [buf H]. by destruct (fromHexChar c).
  - cbn [hex_DecodeString String.length all_hex]. rewrite !bool_decide_is_Some.
    change (Nat.even (Datatypes.S (Datatypes.S (String.length s))))
      with (Nat.even (String.length s)).
    destruct (fromHexChar a) as [x|], (fromHexChar b) as [y|];
      cbn [andb]; rewrite ?andb_false_r.
    + rewrite <- IH.
      destruct (hex_DecodeString s) as [bs|e]; split;
        try (by intros [? [=]]); intros _; by eexists.
    + split; [by intros [? [=]]|done].
    + split; [by intros [? [=]]|done].
    + split; [by intros [? [=]]|done].
Qed.

Lemma hex_DecodeString_length (s : string) (buf : list byte) :
  hex_DecodeString s = Ok buf -> String.length s = (2 * length buf)%nat.
Proof.
  revert buf. induction s as [|c|a b s IH] using string_pair_ind; intros buf.
  - by intros [= <-].
  - simpl. by destruct (fromHexChar c).
  - cbn [hex_DecodeString].
    destruct (fromHexChar a) as [x|], (fromHexChar b) as [y|]; try done.
    destruct (hex_DecodeString s) as [bs|e]; [|done].
    intros [= <-]. cbn [String.length length]. rewrite (IH bs eq_refl). lia.
Qed.

Lemma hex_DecodeString_err (s : string) (e : error) :
  hex_DecodeString s = Err e ->
  e = ErrLength \/ exists c, e = InvalidByteError c /\ fromHexChar c = None.
Proof.
  revert e. induction s as [|c|a b s IH] using string_pair_ind; intros e.
  - done.
  - simpl. destruct (fromHexChar c) eqn:Hc; intros [= <-]; eauto.
  - cbn [hex_DecodeString].
    destruct (fromHexChar a) as [x|] eqn:Ha, (fromHexChar b) as [y|] eqn:Hb;
      try (intros [= <-]; eauto).
    destruct (hex_DecodeString s) as [bs|e']; [done|].
    intros [= <-]. by apply IH.
Qed.

Lemma hex_DecodeString_app (s t : string) (buf : list byte) :
  hex_DecodeString s = Ok buf ->
  hex_DecodeString (s +:+ t) =
    match hex_DecodeString t with
    | Ok bs => Ok (buf ++ bs)
    | Err e => Err e
    end.
Proof.
  revert buf. induction s as [|c|a b s IH] using string_pair_ind; intros buf.
  - intros [= <-]. change (EmptyString +:+ t)%string with t.
    by destruct (hex_DecodeString t).
  - simpl. by destruct (fromHexChar c).
  - change (String a (String b s) +:+ t)%string with (String a (String b (s +:+ t))).
    cbn [hex_DecodeString].
    destruct (fromHexChar a) as [x|], (fromHexChar b) as [y|]; try done.
    destruct (hex_DecodeString s) as [bs|e]; [|done].
    intros [= <-]. rewrite (IH bs eq_refl).
    by destruct (hex_DecodeString t).
Qed.

(** X1. [DigestZp] accepts exactly the strings of an even number of
    hexadecimal digits.  What it returns is then an element of the SKS
    field, and otherwise the masked error of encoding/hex: odd length, or a
    byte that is no hexadecimal digit. *)
Theorem DigestZp_accepts (digest : string) :
  ((exists z, DigestZp digest = Ok z) <-> well_formed_hex digest = true) /\
  (forall z, DigestZp digest = Ok z -> P z = P_SKS /\ (Int z < P_SKS)%N) /\
  (forall e, DigestZp digest = Err e ->
     e = Mask ErrLength \/
     exists c, e = Mask (InvalidByteError c) /\ fromHexChar c = None).
Proof.
  split_and!.
  - rewrite <- hex_DecodeString_ok_iff. unfold DigestZp.
    destruct (hex_DecodeString digest) as [buf|e]; split; intros [? H]; try done.
    all: by eexists.
  - unfold DigestZp. destruct (hex_DecodeString digest) as [buf|e]; [|done].
    intros z [= <-]. split; [done|]. simpl. by apply N.mod_upper_bound.
  - unfold DigestZp. destruct (hex_DecodeString digest) as [buf|e'] eqn:H; [done|].
    intros e [= <-]. destruct (hex_DecodeString_err _ _ H) as [->|(c & -> & Hc)]; eauto.
Qed.

Lemma DigestZp_accepts_witness :
  DigestZp "0g" = Err (Mask (InvalidByteError "g")) /\
  DigestZp "abc" = Err (Mask ErrLength) /\
  exists z, DigestZp "" = Ok z /\ P z = P_SKS /\ (Int z < P_SKS)%N.
Proof.
  split; [reflexivity|]. split; [reflexivity|].
  destruct (proj2 (proj1 (DigestZp_accepts "")) eq_refl) as [z Hz].
  exists z. split; [exact Hz|].
  exact (proj1 (proj2 (DigestZp_accepts "")) z Hz).
Defined.

Section DigestElements.
Local Open Scope N_scope.

Lemma Zb_Int (buf : list byte) :
  Int (Zb P_SKS (PadSksElement buf)) = le_value buf mod P_SKS.
Proof. unfold Zb. cbn [Int]. by rewrite big_SetBytes_reversed, PadSksElement_value. Qed.

Lemma DigestZp_ok (digest : string) (buf : list byte) :
  hex_DecodeString digest = Ok buf ->
  DigestZp digest = Ok (Zb P_SKS (PadSksElement buf)).
Proof. intros H. unfold DigestZp. by rewrite H. Qed.

(** X2. Two digests of the same length, of at most 16 bytes, that decode to
    different bytes give different elements. *)
Theorem DigestZp_injective (d1 d2 : string) (b1 b2 : list byte) :
  hex_DecodeString d1 = Ok b1 ->
  hex_DecodeString d2 = Ok b2 ->
  length b1 = length b2 ->
  (length b1 <= 16)%nat ->
  DigestZp d1 = DigestZp d2 ->
  b1 = b2.
Proof.
  intros H1 H2 Hlen Hl Heq.
  rewrite (DigestZp_ok _ _ H1), (DigestZp_ok _ _ H2) in Heq.
  injection Heq as Heq.
  apply le_value_inj; [done|].
  pose proof (Zb_Int b1) as E1. pose proof (Zb_Int b2) as E2.
  rewrite N.mod_small in E1 by (by apply le_value_16).
  rewrite N.mod_small in E2 by (apply le_value_16; lia).
  rewrite <- E1, <- E2. unfold Zb. cbn [Int]. exact Heq.
Qed.

Lemma DigestZp_injective_witness :
  DigestZp "00ff" <> DigestZp "ff00".
Proof.
  intros Heq.
  pose proof (DigestZp_injective "00ff" "ff00" _ _ eq_refl eq_refl eq_refl
                ltac:(simpl; lia) Heq) as H.
  discriminate H.
Defined.

(** X3. Zero bytes at the end of a digest do not count: a digest and the
    same digest followed by "00" give the same element, so digests of
    different lengths can meet in one element. *)
Theorem DigestZp_trailing_zero (digest : string) (z : Zp) :
  DigestZp digest = Ok z ->
  DigestZp (digest +:+ "00") = Ok z.
Proof.
  unfold DigestZp at 1.
  destruct (hex_DecodeString digest) as [buf|e] eqn:Hd; [|done].
  intros [= <-].
  rewrite (DigestZp_ok _ (buf ++ [Byte.x00])).
  - f_equal. unfold Zb. f_equal.
    rewrite !big_SetBytes_reversed, !PadSksElement_value, le_value_app.
    change (le_value [Byte.x00]) with 0. by rewrite N.mul_0_r, N.add_0_r.
  - by rewrite (hex_DecodeString_app _ _ _ Hd).
Qed.

Lemma DigestZp_trailing_zero_witness :
  DigestZp "ab00" = DigestZp "ab".
Proof.
  destruct (DigestZp "ab") as [z|e] eqn:H; [|discriminate H].
  exact (DigestZp_trailing_zero "ab" z H).
Defined.
End DigestElements.

Section HashqueryElements.
Local Open Scope N_scope.

Lemma PadSksElement_Bytes_length (z : Zp) :
  Int z < P_SKS -> length (PadSksElement (Zp_Bytes z)) = SksZpNbytes.
Proof.
  intros Hz. rewrite PadSksElement_length.
  pose proof (Zp_Bytes_length z SksZpNbytes ltac:(pose proof P_SKS_width; lia)). lia.
Qed.

Lemma removelast_snoc_inv (l : list byte) :
  l <> [] -> exists x, l = removelast l ++ [x].
Proof.
  destruct l as [|x l _] using rev_ind; [done|]. intros _.
  exists x. by rewrite removelast_last.
Qed.

(** The bytes sent for an element are the low 16 bytes of its value. *)
Lemma hashquery_element_value (z : Zp) :
  Int z < P_SKS ->
  length (hashquery_element z) = 16%nat /\
  le_value (hashquery_element z) = Int z mod 2 ^ 128.
Proof.
  intros Hz. pose proof (PadSksElement_Bytes_length z Hz) as Hlen.
  unfold hashquery_element.
  destruct (removelast_snoc_inv (PadSksElement (Zp_Bytes z))) as [x Hx].
  { intros H. rewrite H in Hlen. done. }
  set (l := removelast (PadSksElement (Zp_Bytes z))) in *.
  assert (Hl : length l = 16%nat).
  { rewrite Hx, length_app in Hlen. unfold SksZpNbytes in Hlen. simpl in Hlen. lia. }
  split; [done|].
  pose proof (PadSksElement_value (Zp_Bytes z)) as Hv.
  rewrite Zp_Bytes_value, Hx, le_value_app, Hl in Hv.
  pose proof (le_value_lt l) as Hlt. rewrite Hl in Hlt.
  change (256 ^ N.of_nat 16) with (2 ^ 128) in *.
  rewrite <- Hv, N.mul_comm, N.Div0.mod_add. symmetry. by apply N.mod_small.
Qed.

(** X4. An element of the field is sent as 16 bytes, as the source says at
    recon.go:359.  For a digest of exactly 16 bytes these are the bytes of
    the digest: the byte that is cut is the zero byte of the padding. *)
Theorem hashquery_element_digest :
  (forall z, Int z < P_SKS -> length (hashquery_element z) = 16%nat) /\
  (forall digest buf,
     hex_DecodeString digest = Ok buf -> length buf = 16%nat ->
     exists z, DigestZp digest = Ok z /\ hashquery_element z = buf).
Proof.
  split.
  - intros z Hz. by destruct (hashquery_element_value z Hz).
  - intros digest buf Hd Hl. eexists. split; [by apply DigestZp_ok|].
    unfold hashquery_element.
    rewrite (proj2 (Zb_Bytes_roundtrip buf)).
    + unfold PadSksElement, SksZpNbytes. rewrite Hl.
      change (replicate (17 - 16) Byte.x00) with [Byte.x00].
      apply removelast_last.
    + split; [unfold SksZpNbytes; lia|]. apply le_value_16. lia.
Qed.

Lemma hashquery_element_digest_witness :
  exists z,
    DigestZp "00112233445566778899aabbccddeeff" = Ok z /\
    hashquery_element z =
      map byte_of_N [0; 17; 34; 51; 68; 85; 102; 119; 136; 153;
                     170; 187; 204; 221; 238; 255].
Proof.
  exact (proj2 hashquery_element_digest "00112233445566778899aabbccddeeff"
           _ eq_refl eq_refl).
Defined.

(** X5. The bytes sent for an element tell its value only modulo 2^128: two
    elements of the field are sent as the same bytes exactly when their
    values agree modulo 2^128.  The field has elements from 2^128 on, and
    each of them is sent as the bytes of an element below 2^128. *)
Theorem hashquery_element_collision (z z' : Zp) :
  Int z < P_SKS ->
  Int z' < P_SKS ->
  (hashquery_element z = hashquery_element z' <->
   Int z mod 2 ^ 128 = Int z' mod 2 ^ 128).
Proof.
  intros Hz Hz'.
  destruct (hashquery_element_value z Hz) as [Hl Hv].
  destruct (hashquery_element_value z' Hz') as [Hl' Hv'].
  rewrite <- Hv, <- Hv'. split; [by intros ->|].
  intros Heq. apply le_value_inj; [congruence|done].
Qed.

Lemma hashquery_element_collision_witness :
  hashquery_element {| Int := 5; P := P_SKS |} =
  hashquery_element {| Int := 2 ^ 128 + 5; P := P_SKS |}.
Proof.
  apply (hashquery_element_collision {| Int := 5; P := P_SKS |}
           {| Int := 2 ^ 128 + 5; P := P_SKS |}); reflexivity.
Defined.
End HashqueryElements.

(** ** More on the statistics *)

Lemma LoadStatMap_update_lookup_ne (m : LoadStatMap) (t k : Time) (kc : KeyChange) :
  k <> t -> LoadStatMap_update m t kc !! k = m !! k.
Proof. intros Hne. unfold LoadStatMap_update. by rewrite lookup_insert_ne. Qed.

(** X6. [Stats.update] touches one hourly and one daily bucket, those of the
    truncated clock readings; every other bucket keeps its counters.  A
    change that is neither [KeyAdded] nor [KeyReplaced] counts nothing, but
    its two buckets are there afterwards, with zero counters when they were
    not there before. *)
Theorem Stats_update_buckets (change : KeyChange) (w : World) :
  let t1 := time_Now_at (env w) (trace w) in
  let t2 := time_Now_at (env w) (trace w ++ [EvNow t1]) in
  let hour := Time_Truncate t1 Hour in
  let day := Time_Truncate t2 (24 * Hour) in
  let s := stats w in
  let s' := stats (Stats_update change w).2 in
  (forall k, k <> hour -> Hourly s' !! k = Hourly s !! k) /\
  (forall k, k <> day -> Daily s' !! k = Daily s !! k) /\
  (kind change = KeyOther ->
     Total s' = Total s /\
     Hourly s' !! hour = Some (bucket (Hourly s) hour) /\
     Daily s' !! day = Some (bucket (Daily s) day)).
Proof.
  cbv zeta. rewrite Stats_update_run. cbn [snd].
  unfold set_stats, updated_stats. cbn [stats Total Hourly Daily].
  split_and!.
  - intros k Hk. by apply LoadStatMap_update_lookup_ne.
  - intros k Hk. by apply LoadStatMap_update_lookup_ne.
  - intros Hk. rewrite !LoadStatMap_update_lookup, Hk. done.
Qed.

Lemma Stats_update_buckets_witness :
  let change := {| kind := KeyOther; InsertDigests := []; RemoveDigests := [] |} in
  let s' := stats (Stats_update change example_world).2 in
  Total s' = 0 /\
  Hourly s' !! (1000 * Hour) = Some {| Inserted := 0; Updated := 0 |} /\
  Daily s' !! (984 * Hour) = Some {| Inserted := 0; Updated := 0 |}.
Proof.
  intros change.
  destruct (Stats_update_buckets change example_world) as (_ & _ & H).
  exact (H eq_refl).
Defined.

Lemma Time_Truncate_bounds (t d : Z) :
  0 < d -> t - d < Time_Truncate t d <= t.
Proof.
  intros Hd. unfold Time_Truncate.
  destruct (Z.leb_spec d 0); [lia|].
  pose proof (Z.mod_pos_bound t d Hd). lia.
Qed.

(** X7. A change that was counted is not pruned right away: when
    [Stats.prune] runs after [Stats.update] and reads the clock less than 23
    hours after the update did, the hourly bucket of the change is kept, and
    the daily bucket is kept when less than 6 days have passed. *)
Theorem Stats_update_then_prune (change : KeyChange) (w : World) :
  let t1 := time_Now_at (env w) (trace w) in
  let t2 := time_Now_at (env w) (trace w ++ [EvNow t1]) in
  let hour := Time_Truncate t1 Hour in
  let day := Time_Truncate t2 (24 * Hour) in
  let w1 := (Stats_update change w).2 in
  let p1 := time_Now_at (env w1) (trace w1) in
  let p2 := time_Now_at (env w1) (trace w1 ++ [EvNow p1]) in
  let w2 := (Stats_prune w1).2 in
  (p1 < t1 + 23 * Hour ->
     Hourly (stats w2) !! hour = Hourly (stats w1) !! hour /\
     is_Some (Hourly (stats w2) !! hour)) /\
  (p2 < t2 + 6 * (24 * Hour) ->
     Daily (stats w2) !! day = Daily (stats w1) !! day /\
     is_Some (Daily (stats w2) !! day)).
Proof.
  cbv zeta.
  assert (H3 : forall k,
            time_Now_at (env (Stats_update change w).2) (trace (Stats_update change w).2)
              - 24 * Hour <= k ->
            Hourly (stats (Stats_prune (Stats_update change w).2).2) !! k =
              Hourly (stats (Stats_update change w).2) !! k).
  { intros k Hk. rewrite Stats_prune_run. cbn [snd]. unfold set_stats.
    cbn [stats Hourly]. rewrite delete_before_lookup. unfold Time_Before, Time_Add.
    match goal with |- context [?a <? ?b] => destruct (Z.ltb_spec a b) end; [lia|done]. }
  assert (H4 : forall k,
            time_Now_at (env (Stats_update change w).2)
              (trace (Stats_update change w).2
               ++ [EvNow (time_Now_at (env (Stats_update change w).2)
                                      (trace (Stats_update change w).2))])
              - 7 * (24 * Hour) <= k ->
            Daily (stats (Stats_prune (Stats_update change w).2).2) !! k =
              Daily (stats (Stats_update change w).2) !! k).
  { intros k Hk. rewrite Stats_prune_run. cbn [snd]. unfold set_stats.
    cbn [stats Daily]. rewrite delete_before_lookup. unfold Time_Before, Time_Add.
    match goal with |- context [?a <? ?b] => destruct (Z.ltb_spec a b) end; [lia|done]. }
  assert (HH : 0 < Hour) by done.
  pose proof (Time_Truncate_bounds (time_Now_at (env w) (trace w)) Hour HH) as B1.
  pose proof (Time_Truncate_bounds
                (time_Now_at (env w) (trace w ++ [EvNow (time_Now_at (env w) (trace w))]))
                (24 * Hour) ltac:(lia)) as B2.
  split; intros Hp.
  - rewrite H3 by lia. split; [done|].
    rewrite Stats_update_run. cbn [snd]. unfold set_stats, updated_stats.
    cbn [stats Hourly]. rewrite LoadStatMap_update_lookup. by eexists.
  - rewrite H4 by lia. split; [done|].
    rewrite Stats_update_run. cbn [snd]. unfold set_stats, updated_stats.
    cbn [stats Daily]. rewrite LoadStatMap_update_lookup. by eexists.
Qed.

Lemma Stats_update_then_prune_witness :
  let change := {| kind := KeyAdded; InsertDigests := []; RemoveDigests := [] |} in
  let w2 := (Stats_prune (Stats_update change example_world).2).2 in
  is_Some (Hourly (stats w2) !! (1000 * Hour)) /\
  is_Some (Daily (stats w2) !! (984 * Hour)).
Proof.
  intros change.
  destruct (Stats_update_then_prune change example_world) as [H1 H2].
  split.
  - apply H1. vm_compute. reflexivity.
  - apply H2. vm_compute. reflexivity.
Defined.

Lemma delete_before_subseteq (bound : Time) (m : LoadStatMap) :
  delete_before bound m ⊆ m.
Proof.
  apply map_subseteq_spec. intros k v. rewrite delete_before_lookup.
  by destruct (Time_Before k bound).
Qed.

(** X8. The pruning loop never returns an error and returns only when the
    tomb is dying.  However often its timer fires, it never changes the
    total and never adds a bucket or changes the counters of one: the
    buckets afterwards are among those before. *)
Theorem pruneStats_only_prunes (selected : list (Select unit)) (w : World) :
  let r := pruneStats selected w in
  (forall err, r.1 = Some err -> err = None /\ Dying ∈ selected) /\
  (Dying ∉ selected -> r.1 = None) /\
  Total (stats r.2) = Total (stats w) /\
  Hourly (stats r.2) ⊆ Hourly (stats w) /\
  Daily (stats r.2) ⊆ Daily (stats w).
Proof.
  cbv zeta. revert w.
  induction selected as [|[|[]] selected IH]; intros w; cbn [pruneStats].
  - split_and!; try done.
  - split_and!; try done.
    + intros err [= <-]. split; [done|]. apply list_elem_of_here.
    + intros H. exfalso. apply H. apply list_elem_of_here.
  - rewrite Stats_prune_run. cbv zeta. cbn [snd].
    set (w1 := set_stats _ _).
    destruct (IH w1) as (H1 & H2 & H3 & H4 & H5).
    split_and!.
    + intros err He. destruct (H1 err He) as [-> Hin].
      split; [done|]. by apply list_elem_of_further.
    + intros Hn. apply H2. intros Hin. apply Hn. by apply list_elem_of_further.
    + by rewrite H3.
    + etrans; [exact H4|]. apply delete_before_subseteq.
    + etrans; [exact H5|]. apply delete_before_subseteq.
Qed.

Lemma pruneStats_only_prunes_witness :
  (pruneStats [Received tt; Received tt; Dying] example_world).1 = Some None /\
  (pruneStats [Received tt; Received tt] example_world).1 = None.
Proof.
  split.
  - destruct (pruneStats [Received tt; Received tt; Dying] example_world).1
      as [err|] eqn:H; [|discriminate H].
    by destruct (proj1 (pruneStats_only_prunes
                          [Received tt; Received tt; Dying] example_world) err H) as [-> _].
  - apply (proj1 (proj2 (pruneStats_only_prunes
                           [Received tt; Received tt] example_world))).
    intros H. repeat (apply elem_of_cons in H as [H|H]; [discriminate H|]).
    by apply elem_of_nil in H.
Defined.

(** ** More on loading the statistics *)

Lemma loadStats_run (w : World) :
  let fn := statsFilename (env w) (path w) in
  let o := os_Open_at (env w) (trace w) fn in
  loadStats w =
    (Ok tt,
     set_stats (stats (loadStats w).2)
       (record_all ([EvOpen fn; EvPTreeRoot]
                    ++ match o with Opened _ => [EvFileClose] | _ => [] end) w)).
Proof.
  cbv zeta. unfold loadStats at 1 2. rewrite !Run_bind_call.
  destruct (os_Open_at (env w) (trace w) (statsFilename (env w) (path w)))
    as [content|err|err].
  - destruct (json_Decode (env w) content newStats) as [stats1 err].
    rewrite !logged_ret.
    change (mret tt ≫= fun _ : unit => mret (M:=Run) stats1) with (mret (M:=Run) stats1).
    rewrite !Run_bind_ret, !Run_bind_call. cbn [env trace record].
    destruct (ptree_Root_at _ _) as [size|err']; rewrite ?logged_ret;
      unfold mbind, Run_bind, mret, Run_ret, modify_stats, call, record, set_stats,
        record_all; cbn [fst snd env trace path stats];
      by rewrite <- !app_assoc.
  - rewrite !Run_bind_ret, !Run_bind_call. cbn [env trace record].
    destruct (ptree_Root_at _ _) as [size|err']; rewrite ?logged_ret;
      unfold mbind, Run_bind, mret, Run_ret, modify_stats, call, record, set_stats,
        record_all; cbn [fst snd env trace path stats];
      by rewrite <- !app_assoc.
  - rewrite !logged_ret.
    change (mret tt ≫= fun _ : unit => mret (M:=Run) newStats) with (mret (M:=Run) newStats).
    rewrite !Run_bind_ret, !Run_bind_call. cbn [env trace record].
    destruct (ptree_Root_at _ _) as [size|err']; rewrite ?logged_ret;
      unfold mbind, Run_bind, mret, Run_ret, modify_stats, call, record, set_stats,
        record_all; cbn [fst snd env trace path stats];
      by rewrite <- !app_assoc.
Qed.



(** ** More on the digest-update pipeline *)

(** X10. When every digest of a change is hexadecimal, [updateDigests]
    returns nil, and after the two clock readings it has called the engine
    once for every digest: an insert for each inserted digest, in order, and
    then a remove for each removed digest, in order.  A change without
    digests only reads the clock. *)
Theorem updateDigests_valid (change : KeyChange) (w : World) :
  Forall (fun od => exists z, DigestZp od.2 = Ok z) (digest_ops change) ->
  let t1 := time_Now_at (env w) (trace w) in
  let t2 := time_Now_at (env w) (trace w ++ [EvNow t1]) in
  let r := updateDigests change w in
  r.1 = Ok tt /\
  trace r.2 = trace w ++ [EvNow t1; EvNow t2] ++ omap apply_digest (digest_ops change) /\
  length (omap apply_digest (digest_ops change)) =
    (length (InsertDigests change) + length (RemoveDigests change))%nat.
Proof.
  intros Hall. cbv zeta.
  assert (Hlen : length (omap apply_digest (digest_ops change)) =
            (length (InsertDigests change) + length (RemoveDigests change))%nat).
  { rewrite omap_apply_valid by done. unfold digest_ops.
    by rewrite length_app, !length_map. }
  unfold digest_ops in Hall. apply Forall_app in Hall as [H1 H2].
  apply Forall_valid_pair in H1. apply Forall_valid_pair in H2.
  unfold updateDigests, mbind, Run_bind. rewrite Stats_update_run.
  change peer_Insert with (peer_apply OpInsert).
  change peer_Remove with (peer_apply OpRemove).
  rewrite (each_digest_valid OpInsert) by done.
  rewrite (each_digest_valid OpRemove) by done.
  cbn [fst snd]. split_and!; [done| |done].
  unfold record_all, set_stats, digest_ops. cbn [trace].
  by rewrite omap_app, <- !app_assoc.
Qed.

Lemma updateDigests_valid_witness :
  let change := {| kind := KeyReplaced;
                   InsertDigests := ["00112233445566778899aabbccddeeff"%string];
                   RemoveDigests := ["ffeeddccbbaa99887766554433221100"%string] |} in
  let r := updateDigests change example_world in
  r.1 = Ok tt /\ length (engine_calls (trace r.2)) = 2%nat.
Proof.
  intros change.
  destruct (updateDigests_valid change example_world) as (H1 & H2 & H3).
  { repeat constructor; eexists; reflexivity. }
  split; [exact H1|]. rewrite H2. reflexivity.
Defined.

(** ** More on recovery *)

Lemma requestChunk_unresolved rcvr chunk w e :
  HkpAddr rcvr = Err e -> requestChunk rcvr chunk w = (Err (Mask e), w).
Proof. intros H. unfold requestChunk. by rewrite H. Qed.

Section LoopInvariant.
Context {S : Type}.
Variable rc : list Zp -> S -> option error * S.

(** What every round trip keeps, the loop keeps. *)
Lemma requestRecovered_loop_keeps (I : S -> Prop) :
  (forall chunk s, I s -> I (rc chunk s).2) ->
  forall n items, (length items <= n)%nat ->
  forall resultErr s, I s -> I (requestRecovered_loop rc items resultErr s).2.
Proof.
  intros Hrc. induction n as [|n IH]; intros items Hlen resultErr s Hs.
  - destruct items; [|simpl in Hlen; lia]. by rewrite requestRecovered_loop_nil.
  - destruct (decide (items = [])) as [->|Hne].
    { by rewrite requestRecovered_loop_nil. }
    rewrite requestRecovered_loop_step by done. cbv zeta.
    apply IH; [|by apply Hrc].
    rewrite length_drop. unfold requestChunkSize.
    destruct items; [done|cbn [length] in *; lia].
Qed.

(** The error of the loop, from the errors of the round trips in order: the
    first one masked, each later one added as a detail. *)
Lemma combine_errors_shape (errs : list (option error)) : forall r,
  foldl combine_errors (Some r) errs = Some (foldl Notef_details r (omap id errs)).
Proof.
  induction errs as [|[e|] errs IH]; intros r; simpl; [done|apply IH..].
Qed.
End LoopInvariant.

Lemma combine_errors_first (errs : list (option error)) :
  foldl combine_errors None errs =
    match omap id errs with
    | [] => None
    | e :: rest => Some (foldl Notef_details (Mask e) rest)
    end.
Proof.
  induction errs as [|[e|] errs IH]; simpl; [done| |exact IH].
  apply combine_errors_shape.
Qed.

(** X11. When the address of the remote peer does not resolve,
    [requestRecovered] makes no outside call at all and leaves the world as
    it is; every round trip returns the masked address error, and the event
    ends with an error unless it has no elements, in which case it ends with
    nil. *)
Theorem requestRecovered_unresolved (rcvr : Recover) (w : World) (e : error) :
  HkpAddr rcvr = Err e ->
  let r := requestRecovered_traced rcvr w in
  (requestRecovered rcvr w).2 = w /\
  Forall (fun call => call.2 = Some (Mask e)) r.2.2 /\
  ((requestRecovered rcvr w).1 = None <-> RemoteElements rcvr = []).
Proof.
  intros Haddr. cbv zeta.
  assert (Hrc : forall chunk s,
            attempt (requestChunk rcvr chunk) s = (Some (Mask e), s)).
  { intros chunk s. unfold attempt. by rewrite (requestChunk_unresolved _ _ _ e). }
  split_and!.
  - unfold requestRecovered.
    apply (requestRecovered_loop_keeps _ (fun s => s = w)) with (n := length (RemoteElements rcvr));
      [|done..].
    intros chunk s ->. by rewrite Hrc.
  - unfold requestRecovered_traced.
    apply (requestRecovered_loop_keeps _
             (fun st => Forall (fun call : list Zp * option error => call.2 = Some (Mask e)) st.2))
      with (n := length (RemoteElements rcvr)); [|done|by constructor].
    intros chunk [s calls] Hs. unfold traced. cbn [fst snd] in *.
    apply Forall_app. split; [done|]. constructor; [|done]. cbn [snd]. by rewrite Hrc.
  - unfold requestRecovered.
    destruct (RemoteElements rcvr) as [|z zs] eqn:Hitems.
    + by rewrite requestRecovered_loop_nil.
    + split; [|done]. intros Hnone. exfalso.
      destruct (traced_loop (fun chunk => attempt (requestChunk rcvr chunk))
                  _ (z :: zs) (Nat.le_refl _) None w [])
        as (cs & H1 & H2 & H3 & H4 & H5 & H6 & H7).
      rewrite <- H2 in Hnone. cbn [fst] in Hnone. rewrite H3 in Hnone.
      assert (Hall : Forall (fun call : list Zp * option error => call.2 = Some (Mask e)) cs).
      { pose proof (requestRecovered_loop_keeps
                      (traced (fun chunk => attempt (requestChunk rcvr chunk)))
                      (fun st => Forall (fun call : list Zp * option error =>
                                           call.2 = Some (Mask e)) st.2)) as Hk.
        specialize (Hk ltac:(intros chunk [s calls] Hs; unfold traced; cbn [fst snd] in *;
                             apply Forall_app; split; [done|]; constructor; [|done];
                             cbn [snd]; by rewrite Hrc)).
        specialize (Hk _ (z :: zs) (Nat.le_refl _) None (w, []) ltac:(by constructor)).
        cbv beta in Hk. by rewrite H1 in Hk. }
      destruct cs as [|[c err] cs].
      * unfold ceil_div, requestChunkSize in H5. cbn [length] in H5.
        assert ((Datatypes.S (length zs) + (100 - 1)) / 100 <> 0)%nat; [|done].
        intros Hz. apply Nat.div_small_iff in Hz; lia.
      * apply Forall_cons in Hall as [Herr _]. cbn [snd] in Herr. subst err.
        rewrite fmap_cons in Hnone. cbn [foldl snd combine_errors] in Hnone.
        by rewrite combine_errors_shape in Hnone.
Qed.

Lemma requestRecovered_unresolved_witness :
  let bad := {| HkpAddr := Err (ExternalError "missing port in address");
                RemoteElements := [ {| Int := 7; P := P_SKS |} ] |} in
  (requestRecovered bad example_world).2 = example_world /\
  (requestRecovered bad example_world).1 <> None.
Proof.
  intros bad.
  destruct (requestRecovered_unresolved bad example_world _ eq_refl) as (H1 & _ & H3).
  split; [exact H1|]. intros H. apply H3 in H. discriminate H.
Defined.

(** X12. The error that [requestRecovered] returns is built on the first
    failure: with the errors of the failed round trips in order, it is the
    first one masked, with each later one added as a detail, and nil when no
    round trip failed. *)
Theorem requestRecovered_error_shape (rcvr : Recover) (w : World) :
  let calls := (requestRecovered_traced rcvr w).2.2 in
  (requestRecovered rcvr w).1 =
    match omap id calls.*2 with
    | [] => None
    | e :: rest => Some (foldl Notef_details (Mask e) rest)
    end.
Proof.
  cbv zeta. unfold requestRecovered_traced, requestRecovered.
  destruct (traced_loop (fun chunk => attempt (requestChunk rcvr chunk))
              _ (RemoteElements rcvr) (Nat.le_refl _) None w [])
    as (cs & H1 & H2 & H3 & _).
  rewrite H1, app_nil_l, <- H2. cbn [fst]. rewrite H3.
  apply combine_errors_first.
Qed.

(** ** The response to a HashQuery request *)

(** A round trip with a resolved address, after the request was made. *)
Lemma requestChunk_after_post rcvr chunk w remoteAddr :
  HkpAddr rcvr = Ok remoteAddr ->
  let e := env w in
  let url := hashquery_url remoteAddr in
  let hqBuf := hashquery_request e chunk in
  requestChunk rcvr chunk w =
    (resp ← masked (http_Post_at e (trace w) url "sks/hashquery"%string hqBuf);
     bodyBuf ← masked (Body resp);
     if negb (StatusCode resp =? 200) then fail (Newf_error_response remoteAddr bodyBuf)
     else
       '(nkeys, body) ← masked (recon_ReadInt e bodyBuf);
       read_keys e (Z.to_nat nkeys) body)
      (record (EvPost url "sks/hashquery"%string hqBuf) w).
Proof.
  intros Haddr. cbv zeta. unfold requestChunk. rewrite Haddr. cbv zeta.
  change (masked (Ok remoteAddr)) with (mret (M:=Run) remoteAddr).
  rewrite Run_bind_ret, Run_bind_call.
  by rewrite write_elements_spec.
Qed.

(** X13. A response that is not a readable 200 gives an error and nothing
    is merged: a transport error and an error in reading the body are
    masked, and a body that was read with another status than 200 is
    returned as the text of the error.  The body is read before the status
    is looked at, so an unreadable body hides a bad status. *)
Theorem requestChunk_rejected (rcvr : Recover) (chunk : list Zp) (w : World)
    (remoteAddr : string) :
  HkpAddr rcvr = Ok remoteAddr ->
  let url := hashquery_url remoteAddr in
  let hqBuf := hashquery_request (env w) chunk in
  let post := http_Post_at (env w) (trace w) url "sks/hashquery"%string hqBuf in
  let w1 := record (EvPost url "sks/hashquery"%string hqBuf) w in
  (forall err, post = Err err ->
     requestChunk rcvr chunk w = (Err (Mask err), w1)) /\
  (forall resp err, post = Ok resp -> Body resp = Err err ->
     requestChunk rcvr chunk w = (Err (Mask err), w1)) /\
  (forall resp bodyBuf, post = Ok resp -> Body resp = Ok bodyBuf ->
     StatusCode resp <> 200 ->
     requestChunk rcvr chunk w = (Err (Newf_error_response remoteAddr bodyBuf), w1)).
Proof.
  intros Haddr. cbv zeta. split_and!.
  - intros err Hp. rewrite (requestChunk_after_post _ _ _ _ Haddr). cbv zeta.
    by rewrite Hp.
  - intros resp err Hp Hb. rewrite (requestChunk_after_post _ _ _ _ Haddr). cbv zeta.
    rewrite Hp. change (masked (Ok resp)) with (mret (M:=Run) resp).
    rewrite Run_bind_ret. by rewrite Hb.
  - intros resp bodyBuf Hp Hb Hs.
    rewrite (requestChunk_after_post _ _ _ _ Haddr). cbv zeta.
    rewrite Hp. change (masked (Ok resp)) with (mret (M:=Run) resp).
    rewrite Run_bind_ret, Hb.
    change (masked (Ok bodyBuf)) with (mret (M:=Run) bodyBuf).
    rewrite Run_bind_ret.
    destruct (Z.eqb_spec (StatusCode resp) 200) as [|_]; [done|]. done.
Qed.

Lemma requestChunk_rejected_witness :
  requestChunk example_recover [] flaky_world =
    (Err (Mask (ExternalError "connection refused")),
     record (EvPost (hashquery_url "10.0.0.1:11371") "sks/hashquery"%string
                    (hashquery_request flaky_env [])) flaky_world).
Proof.
  destruct (requestChunk_rejected example_recover [] flaky_world "10.0.0.1:11371" eq_refl)
    as (H & _ & _).
  exact (H _ eq_refl).
Defined.

(** X14. With a 200 response the body is read as a count of keys followed by
    the keys.  A count that cannot be read is a masked error; a count of
    zero or below ends the round trip with nil, nothing merged and the rest
    of the body not looked at; a first key that is announced longer than
    what is left of the body is rejected with io.EOF, nothing merged. *)
Theorem requestChunk_no_keys (rcvr : Recover) (chunk : list Zp) (w : World)
    (remoteAddr : string) (resp : Response) (bodyBuf : list byte) :
  HkpAddr rcvr = Ok remoteAddr ->
  let url := hashquery_url remoteAddr in
  let hqBuf := hashquery_request (env w) chunk in
  let w1 := record (EvPost url "sks/hashquery"%string hqBuf) w in
  http_Post_at (env w) (trace w) url "sks/hashquery"%string hqBuf = Ok resp ->
  Body resp = Ok bodyBuf ->
  StatusCode resp = 200 ->
  (forall err, recon_ReadInt (env w) bodyBuf = Err err ->
     requestChunk rcvr chunk w = (Err (Mask err), w1)) /\
  (forall nkeys body, recon_ReadInt (env w) bodyBuf = Ok (nkeys, body) ->
     nkeys <= 0 ->
     requestChunk rcvr chunk w = (Ok tt, w1)) /\
  (forall nkeys body keyLen body',
     recon_ReadInt (env w) bodyBuf = Ok (nkeys, body) -> 0 < nkeys ->
     recon_ReadInt (env w) body = Ok (keyLen, body') ->
     Z.of_nat (length body') < keyLen ->
     requestChunk rcvr chunk w = (Err (Mask ErrEOF), w1)).
Proof.
  intros Haddr url hqBuf w1 Hp Hb Hs.
  assert (Hrun : requestChunk rcvr chunk w =
            ('(nkeys, body) ← masked (recon_ReadInt (env w) bodyBuf);
             read_keys (env w) (Z.to_nat nkeys) body) w1).
  { rewrite (requestChunk_after_post _ _ _ _ Haddr). cbv zeta.
    fold url hqBuf w1. rewrite Hp.
    change (masked (Ok resp)) with (mret (M:=Run) resp).
    rewrite Run_bind_ret, Hb.
    change (masked (Ok bodyBuf)) with (mret (M:=Run) bodyBuf).
    rewrite Run_bind_ret, Hs. done. }
  rewrite Hrun. split_and!.
  - intros err Hr. by rewrite Hr.
  - intros nkeys body Hr Hn. rewrite Hr.
    change (masked (Ok (nkeys, body))) with (mret (M:=Run) (nkeys, body)).
    rewrite Run_bind_ret. replace (Z.to_nat nkeys) with 0%nat by lia. done.
  - intros nkeys body keyLen body' Hr Hn Hr' Hlen. rewrite Hr.
    change (masked (Ok (nkeys, body))) with (mret (M:=Run) (nkeys, body)).
    rewrite Run_bind_ret.
    destruct (Z.to_nat nkeys) as [|n] eqn:Hk; [lia|].
    cbn [read_keys]. rewrite Hr'.
    change (masked (Ok (keyLen, body'))) with (mret (M:=Run) (keyLen, body')).
    rewrite Run_bind_ret. unfold io_CopyN.
    destruct (Z.leb_spec keyLen 0); [lia|].
    destruct (Z.ltb_spec (Z.of_nat (length body')) keyLen); [done|lia].
Qed.

Lemma requestChunk_no_keys_witness :
  requestChunk example_recover [] example_world =
    (Ok tt,
     record (EvPost (hashquery_url "10.0.0.1:11371") "sks/hashquery"%string
                    (hashquery_request example_env [])) example_world).
Proof.
  destruct (requestChunk_no_keys example_recover [] example_world "10.0.0.1:11371"
              {| StatusCode := 200; Body := Ok [] |} []
              eq_refl eq_refl eq_refl eq_refl) as (_ & H & _).
  apply (H 0 []); [reflexivity|lia].
Defined.

(** ** Merging keys *)

Lemma upsertKeys_range_merges (e : Env) (readKeys : list (Result PrimaryKey)) :
  forall w,
  let r := upsertKeys_range e readKeys w in
  exists keys,
    r.2 = record_all (map EvUpsertKey keys) w /\
    keys `prefix_of` omap (deduplicated e) readKeys /\
    (r.1 = Ok tt ->
       Forall (mergeable e) readKeys /\
       keys = omap (deduplicated e) readKeys /\
       length keys = length readKeys).
Proof.
  induction readKeys as [|[key|err] rest IH]; intros w; cbn [upsertKeys_range].
  - exists []. cbn [map]. rewrite record_all_nil. by split_and!.
  - cbn [omap list_omap deduplicated].
    destruct (openpgp_DropDuplicates e key) as [key' [derr|]] eqn:Hd; cbn [fst].
    + exists []. cbn [map]. rewrite record_all_nil.
      split_and!; [done|apply prefix_nil|done].
    + change (masked_err None) with (mret (M:=Run) tt).
      rewrite Run_bind_ret, Run_bind_call.
      destruct (storage_UpsertKey_at (env w) (trace w) key') as [uerr|].
      * exists [key']. split_and!; [done| |done].
        by apply prefix_cons, prefix_nil.
      * change (masked_err None) with (mret (M:=Run) tt).
        rewrite Run_bind_ret.
        destruct (IH (record (EvUpsertKey key') w)) as (keys & H1 & H2 & H3).
        exists (key' :: keys). split_and!.
        -- rewrite H1. cbn [map]. by rewrite record_record_all.
        -- by apply prefix_cons.
        -- intros Hok. destruct (H3 Hok) as (Ha & Hb & Hc).
           split_and!.
           ++ constructor; [|done]. exists key. by rewrite Hd.
           ++ by rewrite Hb.
           ++ cbn [length]. by rewrite Hc.
  - exists []. cbn [map]. rewrite record_all_nil.
    split_and!; [done|apply prefix_nil|done].
Qed.

(** X15. [upsertKeys] hands the keys it reads to the store in the order they
    are read, each after [DropDuplicates], and stops at the first failure:
    the keys handed over are a prefix of the keys read.  It returns nil only
    if every read result was a key, [DropDuplicates] succeeded on each, and
    all of them were handed over; no keys read means nil. *)
Theorem upsertKeys_merges (buf : list byte) (w : World) :
  let e := env w in
  let readKeys := openpgp_ReadKeys e buf in
  let r := upsertKeys buf w in
  exists keys,
    trace r.2 = trace w ++ map EvUpsertKey keys /\
    keys `prefix_of` omap (deduplicated e) readKeys /\
    (r.1 = Ok tt ->
       Forall (mergeable e) readKeys /\
       keys = omap (deduplicated e) readKeys /\
       length keys = length readKeys) /\
    (readKeys = [] -> r = (Ok tt, w)).
Proof.
  cbv zeta. unfold upsertKeys.
  destruct (upsertKeys_range_merges (env w) (openpgp_ReadKeys (env w) buf) w)
    as (keys & H1 & H2 & H3).
  exists keys. split_and!; [by rewrite H1|done|done|].
  intros Hnil. by rewrite Hnil.
Qed.

Lemma upsertKeys_merges_witness :
  upsertKeys [] example_world = (Ok tt, example_world).
Proof.
  destruct (upsertKeys_merges [] example_world) as (keys & _ & _ & _ & H).
  exact (H eq_refl).
Defined.

(** ** LoadStatMap as JSON *)

Section LoadStatMapJSONFacts.
Variable Format : Time -> string.
Variable Parse : string -> Result Time.
Variable json_Marshal : gmap string LoadStat -> Result (list byte).
Variable json_Unmarshal : list byte -> Result (gmap string LoadStat).

(** The document has the buckets of the map under the formatted times, when
    formatting can be undone on the times of the map. *)
Lemma MarshalJSON_doc_lookup (m : LoadStatMap) :
  (forall k, is_Some (m !! k) -> Parse (Format k) = Ok k) ->
  forall s v, MarshalJSON_doc Format m !! s = Some v <->
              exists k, Format k = s /\ m !! k = Some v.
Proof.
  unfold MarshalJSON_doc.
  apply (map_fold_weak_ind
           (fun doc (m : LoadStatMap) =>
              (forall k, is_Some (m !! k) -> Parse (Format k) = Ok k) ->
              forall s v, doc !! s = Some v <-> exists k, Format k = s /\ m !! k = Some v)).
  - intros _ s v. rewrite lookup_empty. split; [done|].
    intros (k & _ & Hk). by rewrite lookup_empty in Hk.
  - intros i x m' doc Hi IH Hp s v.
    assert (Hp' : forall k, is_Some (m' !! k) -> Parse (Format k) = Ok k).
    { intros k [y Hk]. apply Hp. destruct (decide (k = i)) as [->|Hne]; [congruence|].
      rewrite lookup_insert_ne by done. eauto. }
    specialize (IH Hp').
    destruct (decide (s = Format i)) as [->|Hne].
    + rewrite lookup_insert_eq. split.
      * intros [= <-]. exists i. by rewrite lookup_insert_eq.
      * intros (k & Hf & Hk).
        assert (k = i) as ->.
        { assert (Parse (Format k) = Ok k) as Hk' by (apply Hp; eauto).
          assert (Parse (Format i) = Ok i) as Hi'
            by (apply Hp; rewrite lookup_insert_eq; eauto).
          rewrite Hf, Hi' in Hk'. congruence. }
        by rewrite lookup_insert_eq in Hk.
    + rewrite lookup_insert_ne by done. rewrite IH. split.
      * intros (k & Hf & Hk). exists k. split; [done|].
        rewrite lookup_insert_ne; [done|]. intros ->. congruence.
      * intros (k & Hf & Hk). exists k. split; [done|].
        rewrite lookup_insert_ne in Hk; [done|]. intros ->. congruence.
Qed.

(** The loop of [UnmarshalJSON]: it fails exactly when a key of the document
    does not parse; when it does not fail, the receiver has a bucket for a
    time exactly if it had one or a key of the document parses to the time. *)
Lemma UnmarshalJSON_range_spec (doc : gmap string LoadStat) (m0 : LoadStatMap) :
  let r := UnmarshalJSON_range Parse doc m0 in
  (is_Some r.1 <-> exists s e, is_Some (doc !! s) /\ Parse s = Err e) /\
  (r.1 = None ->
     (forall t, (forall s, is_Some (doc !! s) -> Parse s <> Ok t) -> r.2 !! t = m0 !! t) /\
     (forall s v t, doc !! s = Some v -> Parse s = Ok t ->
        (forall s', is_Some (doc !! s') -> Parse s' = Ok t -> s' = s) ->
        r.2 !! t = Some v)).
Proof.
  cbv zeta. unfold UnmarshalJSON_range.
  apply (map_fold_weak_ind
           (fun (r : option error * LoadStatMap) (doc : gmap string LoadStat) =>
              (is_Some r.1 <-> exists s e, is_Some (doc !! s) /\ Parse s = Err e) /\
              (r.1 = None ->
                 (forall t, (forall s, is_Some (doc !! s) -> Parse s <> Ok t) ->
                    r.2 !! t = m0 !! t) /\
                 (forall s v t, doc !! s = Some v -> Parse s = Ok t ->
                    (forall s', is_Some (doc !! s') -> Parse s' = Ok t -> s' = s) ->
                    r.2 !! t = Some v)))).
  - cbn [fst snd]. split.
    + split; [by intros [? [=]]|]. intros (s & e & [v Hs] & _).
      by rewrite lookup_empty in Hs.
    + intros _. split; [done|]. intros s v t Hs. by rewrite lookup_empty in Hs.
  - intros i x doc' [err m'] Hi [IH1 IH2]. cbn [fst snd] in *.
    destruct err as [err|].
    + cbn [fst snd]. split; [|done]. split; [|by eauto].
      intros _. destruct (proj1 IH1 ltac:(eauto)) as (s & e & [v Hs] & He).
      exists s, e. split; [|done]. exists v.
      rewrite lookup_insert_ne; [done|]. intros ->. congruence.
    + destruct (IH2 eq_refl) as [IHa IHb].
      assert (Hnone : ~ exists s e, is_Some (doc' !! s) /\ Parse s = Err e).
      { intros H. apply IH1 in H. by destruct H as [? [=]]. }
      destruct (Parse i) as [t|e] eqn:Hpi; cbn [fst snd].
      * split.
        -- split; [by intros [? [=]]|]. intros (s & e & [v Hs] & He). exfalso.
           destruct (decide (s = i)) as [->|Hne]; [congruence|].
           rewrite lookup_insert_ne in Hs by done. apply Hnone. eauto.
        -- intros _. split.
           ++ intros t' Ht'. rewrite lookup_insert_ne.
              ** apply IHa. intros s [v Hs]. apply Ht'. exists v.
                 rewrite lookup_insert_ne; [done|]. intros ->. congruence.
              ** intros ->. apply (Ht' i); [|done]. rewrite lookup_insert_eq. eauto.
           ++ intros s v t' Hs Hps Huniq.
              destruct (decide (s = i)) as [->|Hne].
              ** rewrite lookup_insert_eq in Hs. injection Hs as <-.
                 rewrite Hpi in Hps. injection Hps as <-. by rewrite lookup_insert_eq.
              ** rewrite lookup_insert_ne in Hs by done.
                 rewrite lookup_insert_ne.
                 --- apply (IHb s v t' Hs Hps). intros s' [v' Hs'] Hp'.
                     apply Huniq; [|done]. exists v'.
                     rewrite lookup_insert_ne; [done|]. intros ->. congruence.
                 --- intros ->. apply Hne. symmetry. apply Huniq; [|done].
                     rewrite lookup_insert_eq. eauto.
      * split; [|done]. split; [|by eauto]. intros _.
        exists i, e. split; [|done]. rewrite lookup_insert_eq. eauto.
Qed.

Lemma UnmarshalJSON_range_has_key (doc : gmap string LoadStat) (m0 : LoadStatMap) :
  (UnmarshalJSON_range Parse doc m0).1 = None ->
  forall s v t, doc !! s = Some v -> Parse s = Ok t ->
                is_Some ((UnmarshalJSON_range Parse doc m0).2 !! t).
Proof.
  unfold UnmarshalJSON_range.
  apply (map_fold_weak_ind
           (fun (r : option error * LoadStatMap) (doc : gmap string LoadStat) =>
              r.1 = None ->
              forall s v t, doc !! s = Some v -> Parse s = Ok t -> is_Some (r.2 !! t))).
  - intros _ s v t Hs. by rewrite lookup_empty in Hs.
  - intros i x doc' [err m'] Hi IH. cbn [fst snd] in *.
    destruct err as [err|]; [done|].
    destruct (Parse i) as [t'|e] eqn:Hpi; cbn [fst snd]; [|done].
    intros _ s v t Hs Hp.
    destruct (decide (t' = t)) as [->|Hne].
    + rewrite lookup_insert_eq. eauto.
    + rewrite lookup_insert_ne by done.
      destruct (decide (s = i)) as [->|Hsi]; [congruence|].
      rewrite lookup_insert_ne in Hs by done. by apply (IH eq_refl s v t).
Qed.

(** X16. Saving and loading the buckets is a round trip: when formatting a
    time of the map and parsing it again gives the time back, and
    [json.Unmarshal] gives back the document that [json.Marshal] was given,
    then [UnmarshalJSON] on what [MarshalJSON] wrote, into an empty map,
    returns nil and leaves the receiver equal to the map. *)
Theorem LoadStatMap_JSON_roundtrip (m : LoadStatMap) (b : list byte) :
  (forall k, is_Some (m !! k) -> Parse (Format k) = Ok k) ->
  (forall doc b, json_Marshal doc = Ok b -> json_Unmarshal b = Ok doc) ->
  LoadStatMap_MarshalJSON Format json_Marshal m = Ok b ->
  LoadStatMap_UnmarshalJSON Parse json_Unmarshal ∅ b = (None, m).
Proof.
  intros Hfp Hjson Hm. unfold LoadStatMap_MarshalJSON in Hm. cbv zeta in Hm.
  unfold LoadStatMap_UnmarshalJSON. rewrite (Hjson _ _ Hm).
  pose proof (MarshalJSON_doc_lookup m Hfp) as Hdoc.
  destruct (UnmarshalJSON_range_spec (MarshalJSON_doc Format m) ∅) as [H1 H2].
  cbv zeta in H1, H2.
  destruct (UnmarshalJSON_range Parse (MarshalJSON_doc Format m) ∅) as [err m'].
  cbn [fst snd] in *.
  assert (err = None) as ->.
  { destruct err as [err|]; [|done]. exfalso.
    destruct (proj1 H1 ltac:(eauto)) as (s & e & [v Hs] & He).
    apply Hdoc in Hs as (k & <- & Hk). rewrite Hfp in He by eauto. done. }
  destruct (H2 eq_refl) as [Ha Hb]. f_equal.
  apply map_eq. intros t. destruct (m !! t) as [v|] eqn:Ht.
  - apply (Hb (Format t) v t).
    + apply Hdoc. eauto.
    + apply Hfp. eauto.
    + intros s' [v' Hs'] Hp'. apply Hdoc in Hs' as (k & <- & Hk).
      rewrite Hfp in Hp' by eauto. congruence.
  - rewrite Ha; [apply lookup_empty|].
    intros s [v Hs] Hp. apply Hdoc in Hs as (k & <- & Hk).
    rewrite Hfp in Hp by eauto. congruence.
Qed.

(** X17. [UnmarshalJSON] returns an error exactly when the JSON cannot be
    read or a key of the document is not a time.  It does not empty the
    receiver: when it returns nil, a bucket of the receiver whose time no
    key of the document parses to is still there, and every key of the
    document has its time in the receiver. *)
Theorem LoadStatMap_UnmarshalJSON_errors (m0 : LoadStatMap) (b : list byte) :
  let r := LoadStatMap_UnmarshalJSON Parse json_Unmarshal m0 b in
  (is_Some r.1 <->
     (exists e, json_Unmarshal b = Err e) \/
     (exists doc s e, json_Unmarshal b = Ok doc /\ is_Some (doc !! s) /\ Parse s = Err e)) /\
  (forall doc, json_Unmarshal b = Ok doc -> r.1 = None ->
     (forall t, (forall s, is_Some (doc !! s) -> Parse s <> Ok t) -> r.2 !! t = m0 !! t) /\
     (forall s, is_Some (doc !! s) -> exists t, Parse s = Ok t /\ is_Some (r.2 !! t))).
Proof.
  cbv zeta. unfold LoadStatMap_UnmarshalJSON.
  destruct (json_Unmarshal b) as [doc|e].
  - destruct (UnmarshalJSON_range_spec doc m0) as [H1 H2]. cbv zeta in H1, H2.
    split.
    + rewrite H1. split.
      * intros (s & e & Hs & He). right. by exists doc, s, e.
      * intros [[e [=]]|(doc' & s & e & [= <-] & Hs & He)]. eauto.
    + intros doc' [= <-] Hnone. destruct (H2 Hnone) as [Ha Hb]. split; [done|].
      intros s [v Hs]. destruct (Parse s) as [t|e] eqn:Hp.
      * exists t. split; [done|].
        by apply (UnmarshalJSON_range_has_key doc m0 Hnone s v t).
      * exfalso. assert (is_Some (UnmarshalJSON_range Parse doc m0).1) as [? Hx].
        { apply H1. exists s, e. eauto. }
        congruence.
  - cbn [fst snd]. split; [|done]. split; [eauto|]. eauto.
Qed.
End LoadStatMapJSONFacts.

Lemma LoadStatMap_JSON_roundtrip_witness :
  LoadStatMap_UnmarshalJSON example_Parse example_Unmarshal ∅ [] = (None, example_buckets).
Proof.
  apply (LoadStatMap_JSON_roundtrip example_Format example_Parse
           example_Marshal example_Unmarshal example_buckets []).
  - intros k [v Hk]. unfold example_buckets in Hk.
    apply lookup_singleton_Some in Hk as [<- _]. reflexivity.
  - intros doc b. unfold example_Marshal. case_decide as Hd; [|done].
    intros [= <-]. by rewrite Hd.
  - vm_compute. reflexivity.
Defined.

(** A document with a key that is no time is refused. *)
Lemma LoadStatMap_UnmarshalJSON_errors_witness :
  is_Some (LoadStatMap_UnmarshalJSON example_Parse example_Unmarshal ∅ [Byte.x00]).1.
Proof.
  apply (proj1 (LoadStatMap_UnmarshalJSON_errors example_Parse example_Unmarshal
                  ∅ [Byte.x00])).
  right. eexists _, "yesterday"%string, _. split; [reflexivity|].
  split; [|reflexivity]. rewrite lookup_singleton_eq. eauto.
Defined.

(** ** Construction of the peer *)

(** [NewPeer], step by step. *)
Lemma NewPeer_run (se : SetupEnv) (e : Env) (path : string) (s : option Settings) :
  let settings := default (recon_DefaultSettings se) s in
  let mk := match os_Stat_at se [] path with StatNotExist _ => true | _ => false end in
  let tr1 := [SvStat path] ++ (if mk then [SvMkdirAll path 493] else []) in
  let tr2 := tr1 ++ [SvLeveldbNew (PTreeConfig settings) path] in
  let tr3 := tr2 ++ [SvPTreeCreate] in
  let p := (loadStats {| env := e; trace := []; path := path; stats := newStats |}).2 in
  NewPeer se e path s =
    match (if mk then os_MkdirAll_at se [SvStat path] path 493 else None) with
    | Some err => (Err (Mask (Mask err)), tr1)
    | None =>
        match leveldb_New_at se tr1 (PTreeConfig settings) path with
        | Some err => (Err (Mask err), tr2)
        | None =>
            match ptree_Create_at se tr2 with
            | Some err => (Err (Mask err), tr3)
            | None =>
                (Ok p, tr3 ++ [SvNewPeer settings] ++ map SvPeer (trace p) ++ [SvSubscribe])
            end
        end
    end.
Proof.
  cbv zeta. unfold NewPeer, newSksPTree. cbn [app].
  replace (match s with None => recon_DefaultSettings se | Some s0 => s0 end)
    with (default (recon_DefaultSettings se) s) by (by destruct s).
  destruct (os_Stat_at se [] path) as [|e0|e0].
  - cbn [app]. destruct (leveldb_New_at _ _ _ _); [done|].
    destruct (ptree_Create_at _ _); [done|]. cbn [app]. by rewrite <- ?app_assoc.
  - destruct (os_MkdirAll_at _ _ _ _); cbn [errgo_Mask app]; [done|].
    destruct (leveldb_New_at _ _ _ _); [done|].
    destruct (ptree_Create_at _ _); [done|]. cbn [app]. by rewrite <- ?app_assoc.
  - cbn [app]. destruct (leveldb_New_at _ _ _ _); [done|].
    destruct (ptree_Create_at _ _); [done|]. cbn [app]. by rewrite <- ?app_assoc.
Qed.

(** X18. When [NewPeer] returns an error, the reconciliation peer was not
    made, no statistics were loaded and nothing was subscribed to the store;
    the error is the masked error of making the directory, of opening the
    tree or of creating it.  The directory is made exactly when [os.Stat]
    reports that the path does not exist: any other error of [os.Stat] is
    passed over and the tree is opened. *)
Theorem NewPeer_error (se : SetupEnv) (e : Env) (path : string) (s : option Settings) :
  let r := NewPeer se e path s in
  (forall err, r.1 = Err err ->
     (exists cause, err = Mask cause) /\
     (SvSubscribe ∉ r.2) /\
     (forall ev, SvPeer ev ∉ r.2) /\
     (forall s', SvNewPeer s' ∉ r.2)) /\
  (SvMkdirAll path 493 ∈ r.2 <-> exists e0, os_Stat_at se [] path = StatNotExist e0) /\
  (forall e0, os_Stat_at se [] path = StatFailed e0 ->
     exists config, SvLeveldbNew config path ∈ r.2).
Proof.
  cbv zeta. rewrite NewPeer_run. cbv zeta.
  set (settings := default (recon_DefaultSettings se) s).
  set (mk := match os_Stat_at se [] path with StatNotExist _ => true | _ => false end).
  assert (Hmk : mk = true <-> exists e0, os_Stat_at se [] path = StatNotExist e0).
  { subst mk. destruct (os_Stat_at se [] path); split; try done; eauto; by intros [? [=]]. }
  assert (Hdir : forall tl : list SetupEvent,
            (forall ev, ev ∈ tl -> ev <> SvMkdirAll path 493) ->
            SvMkdirAll path 493 ∈ ([SvStat path] ++ (if mk then [SvMkdirAll path 493] else [])) ++ tl
            <-> mk = true).
  { intros tl Htl. destruct mk; cbn [app]; split; try done.
    - intros _. rewrite !elem_of_cons. eauto.
    - intros H. apply elem_of_cons in H as [H|H]; [done|]. by destruct (Htl _ H). }
  split_and!.
  - intros err Herr.
    destruct (if mk then os_MkdirAll_at se [SvStat path] path 493 else None) as [e1|].
    { injection Herr as <-. split_and!; [by eexists|..]; unfold not; intros;
        match goal with H : _ ∈ _ |- _ => destruct mk; mem_inv H end. }
    destruct (leveldb_New_at _ _ _ _) as [e1|].
    { injection Herr as <-. split_and!; [by eexists|..]; unfold not; intros;
        match goal with H : _ ∈ _ |- _ => destruct mk; mem_inv H end. }
    destruct (ptree_Create_at _ _) as [e1|]; [|done].
    injection Herr as <-. split_and!; [by eexists|..]; unfold not; intros;
      match goal with H : _ ∈ _ |- _ => destruct mk; mem_inv H end.
  - rewrite <- Hmk.
    destruct (if mk then os_MkdirAll_at se [SvStat path] path 493 else None) as [e1|].
    { cbn [snd]. rewrite <- (app_nil_r (_ ++ _)). apply Hdir. intros ev H. mem_inv H; by subst. }
    destruct (leveldb_New_at _ _ _ _) as [e1|].
    { cbn [snd]. apply Hdir. intros ev H. mem_inv H; by subst. }
    destruct (ptree_Create_at _ _) as [e1|]; cbn [snd]; rewrite <- !app_assoc;
      apply Hdir; intros ev H; mem_inv H; by subst.
  - intros e0 Hstat.
    assert (mk = false) as -> by (subst mk; by rewrite Hstat).
    cbn [app]. eexists.
    destruct (leveldb_New_at _ _ _ _) as [e1|]; [cbn [snd]; rewrite !elem_of_cons; eauto|].
    destruct (ptree_Create_at _ _) as [e1|]; cbn [snd];
      rewrite !elem_of_cons; eauto 10.
Qed.

Lemma NewPeer_error_witness :
  let r := NewPeer readonly_setup example_env "ptree" None in
  r.1 = Err (Mask (Mask (ExternalError "read-only file system"))) /\
  (SvSubscribe ∉ r.2) /\
  SvMkdirAll "ptree" 493 ∈ r.2.
Proof.
  intros r.
  destruct (NewPeer_error readonly_setup example_env "ptree" None)
    as (Herr & Hmk & _).
  split; [reflexivity|]. split.
  - by destruct (Herr _ eq_refl) as (_ & H & _).
  - apply Hmk. by eexists.
Defined.

(** X19. When [NewPeer] returns a peer, the tree was opened and created and
    the reconciliation peer made with the settings given, or with the
    default settings when none were given; then the statistics were loaded,
    and only then the peer subscribed to the store, as the last call.  The
    peer has the path it was given and the statistics that [loadStats]
    leaves. *)
Theorem NewPeer_success (se : SetupEnv) (e : Env) (dir : string) (s : option Settings)
    (p : World) :
  (NewPeer se e dir s).1 = Ok p ->
  let settings := default (recon_DefaultSettings se) s in
  let fresh := {| env := e; trace := []; path := dir; stats := newStats |} in
  p = (loadStats fresh).2 /\
  path p = dir /\
  exists before,
    (NewPeer se e dir s).2 =
      before ++ [SvLeveldbNew (PTreeConfig settings) dir; SvPTreeCreate;
                 SvNewPeer settings]
             ++ map SvPeer (trace p) ++ [SvSubscribe] /\
    forall ev, ev ∈ before -> ev = SvStat dir \/ ev = SvMkdirAll dir 493.
Proof.
  rewrite NewPeer_run. cbv zeta.
  match goal with |- context [if ?b then os_MkdirAll_at se [SvStat dir] dir 493 else None] =>
    destruct (if b then os_MkdirAll_at se [SvStat dir] dir 493 else None) as [e1|] end;
    [done|].
  destruct (leveldb_New_at _ _ _ _) as [e1|]; [done|].
  destruct (ptree_Create_at _ _) as [e1|]; [done|].
  cbn [fst snd]. intros [= <-]. split_and!.
  - done.
  - by rewrite loadStats_run.
  - exists ([SvStat dir]
            ++ (if match os_Stat_at se [] dir with StatNotExist _ => true | _ => false end
                then [SvMkdirAll dir 493] else [])).
    split; [by rewrite <- !app_assoc|].
    intros ev H. destruct (os_Stat_at se [] dir); mem_inv H; eauto.
Qed.

Lemma NewPeer_success_witness :
  exists p before,
    (NewPeer example_setup example_env "ptree" None).1 = Ok p /\
    (NewPeer example_setup example_env "ptree" None).2 =
      before ++ [SvLeveldbNew 0 "ptree"; SvPTreeCreate; SvNewPeer {| PTreeConfig := 0 |}]
             ++ map SvPeer (trace p) ++ [SvSubscribe].
Proof.
  eexists _. 
  destruct (NewPeer_success example_setup example_env "ptree" None _ eq_refl)
    as (_ & _ & before & H & _).
  exists before. split; [reflexivity|exact H].
Defined.

(** ** Counting twice *)

(** X20. Two added keys counted within the same hour go to the same hourly
    bucket, which is counted up twice; counted in different hours, the second
    leaves the bucket of the first as it is.  The total is counted up twice
    in both cases. *)
Theorem Stats_update_twice (c1 c2 : KeyChange) (w : World) :
  kind c1 = KeyAdded ->
  kind c2 = KeyAdded ->
  let hour1 := Time_Truncate (time_Now_at (env w) (trace w)) Hour in
  let w1 := (Stats_update c1 w).2 in
  let hour2 := Time_Truncate (time_Now_at (env w1) (trace w1)) Hour in
  let w2 := (Stats_update c2 w1).2 in
  let old := bucket (Hourly (stats w)) hour1 in
  Total (stats w2) = int_incr (int_incr (Total (stats w))) /\
  (hour1 = hour2 ->
     Hourly (stats w2) !! hour1 =
       Some {| Inserted := int_incr (int_incr (Inserted old)); Updated := Updated old |}) /\
  (hour1 <> hour2 ->
     Hourly (stats w2) !! hour1 =
       Some {| Inserted := int_incr (Inserted old); Updated := Updated old |}).
Proof.
  intros Hk1 Hk2. cbv zeta.
  set (hour1 := Time_Truncate (time_Now_at (env w) (trace w)) Hour).
  assert (H1 : Hourly (stats (Stats_update c1 w).2) !! hour1 =
               Some {| Inserted := int_incr (Inserted (bucket (Hourly (stats w)) hour1));
                       Updated := Updated (bucket (Hourly (stats w)) hour1) |}).
  { rewrite Stats_update_run. cbn [snd]. unfold set_stats, updated_stats.
    cbn [stats Hourly]. by rewrite LoadStatMap_update_lookup, Hk1. }
  assert (HT : Total (stats (Stats_update c1 w).2) = int_incr (Total (stats w))).
  { rewrite Stats_update_run. cbn [snd]. unfold set_stats, updated_stats.
    cbn [stats Total]. by rewrite Hk1. }
  set (w1 := (Stats_update c1 w).2) in *.
  rewrite (Stats_update_run c2 w1). cbv zeta. cbn [snd].
  unfold set_stats, updated_stats. cbn [stats Total Hourly].
  rewrite Hk2. cbn [count_total]. split_and!.
  - by rewrite HT.
  - intros Heq. rewrite <- Heq.
    rewrite LoadStatMap_update_lookup, Hk2. unfold bucket at 1 2. by rewrite H1.
  - intros Hne. by rewrite LoadStatMap_update_lookup_ne.
Qed.

Lemma Stats_update_twice_witness :
  let c := {| kind := KeyAdded; InsertDigests := []; RemoveDigests := [] |} in
  let w2 := (Stats_update c (Stats_update c example_world).2).2 in
  Total (stats w2) = 2 /\
  Hourly (stats w2) !! (1000 * Hour) = Some {| Inserted := 2; Updated := 0 |}.
Proof.
  intros c.
  destruct (Stats_update_twice c c example_world eq_refl eq_refl) as (H1 & H2 & _).
  split; [exact H1|]. exact (H2 eq_refl).
Defined.
